(** * The alert queue of the dashboard

    A shallow embedding of the alert store kept by [Dashboard]
    ([addAlert], [dismissAlert]) and of the [AlertNotifications]
    component that shows its first [maxAlerts] entries, plays a sound for a
    new head alert and dismisses the oldest visible alert with a 10 second
    timeout. *)

From Stdlib Require QArith Qcanon.
From stdpp Require Import base numbers option list strings pretty.

Open Scope Z_scope.
Open Scope nat_scope.

(** ** JavaScript values carried by the fields of an alert *)

(** The producers fill [id] with [Date.now()] (an integer) and the other
    fields with strings; a field that the object literal leaves out reads
    as [undefined].  [NaN] is kept because it is the one value that strict
    equality does not relate to itself. *)
Inductive JsVal : Type :=
  | JUndefined
  | JNull
  | JBool (b : bool)
  | JNum (n : Z)
  | JNaN
  | JStr (s : string).

#[global] Instance JsVal_eq_dec : EqDecision JsVal.
Proof. solve_decision. Defined.

(** [x === y] *)
Definition strict_eq (x y : JsVal) : bool :=
  match x, y with
  | JUndefined, JUndefined => true
  | JNull, JNull => true
  | JBool a, JBool b => bool_decide (a = b)
  | JNum a, JNum b => bool_decide (a = b)
  | JStr a, JStr b => bool_decide (a = b)
  | _, _ => false
  end.

(** [x !== y] *)
Definition strict_neq (x y : JsVal) : bool := negb (strict_eq x y).

(** ** Alerts *)

(** An alert is an object; [ref] is the identity of the object (what [!==]
    compares on two objects), the other fields are its properties. *)
Record Alert : Type := mkAlert {
  ref : nat;
  id : JsVal;
  type : JsVal;
  title : JsVal;
  message : JsVal;
  details : JsVal;
  timestamp : JsVal }.

#[global] Instance Alert_eq_dec : EqDecision Alert.
Proof. solve_decision. Defined.

(** [a !== b] where [a] is an object and [b] an array element that may be
    missing ([undefined]). *)
Definition obj_neq (a : Alert) (b : option Alert) : bool :=
  match b with
  | None => true
  | Some b' => negb (bool_decide (ref a = ref b'))
  end.

(** ** Array primitives, on the contents of an array *)

(** [Array.prototype.slice(begin, end)]: a negative index counts from the
    end, and both are clamped to the array. *)
Definition js_slice {A : Type} (b e : Z) (l : list A) : list A :=
  let len := Z.of_nat (length l) in
  let k := if bool_decide (b < 0)%Z then Z.max (len + b) 0 else Z.min b len in
  let final := if bool_decide (e < 0)%Z then Z.max (len + e) 0 else Z.min e len in
  take (Z.to_nat (Z.max (final - k) 0)) (drop (Z.to_nat k) l).

(** ** The store: the state updaters of [Dashboard] *)

Definition storeCapacity : Z := 5.

(** [prev => [alert, ...prev].slice(0, 5)] *)
Definition addAlert (alert : Alert) (prev : list Alert) : list Alert :=
  js_slice 0 storeCapacity (alert :: prev).

(** [prev => prev.filter(alert => alert.id !== id)] *)
Definition dismissAlert (i : JsVal) (prev : list Alert) : list Alert :=
  filter (λ alert, strict_neq (id alert) i = true) prev.

(** [[...alerts].slice(0, maxAlerts)] *)
Definition recentAlerts (maxAlerts : Z) (alerts : list Alert) : list Alert :=
  js_slice 0 maxAlerts alerts.

(** ** Arrays as objects *)

(** React compares state and effect dependencies by reference, so an array
    is kept in a heap and named by its position there.  No code of the
    store or of the component writes to an array after it has been built
    ([slice], [filter] and the spread all build a new one), hence the heap
    only grows. *)
Abbreviation aref := nat (only parsing).
Abbreviation Heap := (list (list Alert)) (only parsing).

Definition deref (h : Heap) (r : aref) : list Alert := default [] (h !! r).

(** ** The running application: [Dashboard] with its [AlertNotifications] *)

(** What the outside observes: the sounds played and the calls of the
    [onDismiss] callback. *)
Inductive Event : Type :=
  | Sound (ty : JsVal)
  | DismissCall (i : JsVal).

#[global] Instance Event_eq_dec : EqDecision Event.
Proof. solve_decision. Defined.

(** A pending [setTimeout]: its handle, the time it is due, and what the
    callback closes over (the [visibleAlerts] array and the [onDismiss]
    closure of the render that armed it). *)
Record Timer : Type := mkTimer {
  handle : nat;
  deadline : N;
  t_visibleAlerts : aref;
  t_onDismiss : nat }.

#[global] Instance Timer_eq_dec : EqDecision Timer.
Proof. solve_decision. Defined.

Record Sys : Type := mkSys {
  heap : Heap;
  now : N;                          (* clock, in ms *)
  alerts : aref;                    (* Dashboard: useState([]) *)
  renders : nat;                    (* Dashboard renders so far: names the
                                       dismissAlert closure of the last one *)
  visibleAlerts : aref;             (* AlertNotifications: useState([]) *)
  pendingVisible : option aref;     (* queued setVisibleAlerts *)
  deps1 : option aref;              (* [alerts, maxAlerts] of the last run of
                                       the first effect; maxAlerts never changes *)
  deps2 : option (aref * nat);      (* [visibleAlerts, onDismiss] of the last
                                       run of the second effect *)
  cleanup2 : option nat;            (* () => clearTimeout(timer), if returned *)
  timers : list Timer;              (* pending timeouts of the runtime *)
  next_handle : nat;
  log : list Event }.

Definition set_heap (v : Heap) (s : Sys) : Sys :=
  mkSys v (now s) (alerts s) (renders s) (visibleAlerts s) (pendingVisible s)
        (deps1 s) (deps2 s) (cleanup2 s) (timers s) (next_handle s) (log s).
Definition set_now (v : N) (s : Sys) : Sys :=
  mkSys (heap s) v (alerts s) (renders s) (visibleAlerts s) (pendingVisible s)
        (deps1 s) (deps2 s) (cleanup2 s) (timers s) (next_handle s) (log s).
Definition set_alerts (v : aref) (s : Sys) : Sys :=
  mkSys (heap s) (now s) v (renders s) (visibleAlerts s) (pendingVisible s)
        (deps1 s) (deps2 s) (cleanup2 s) (timers s) (next_handle s) (log s).
Definition set_renders (v : nat) (s : Sys) : Sys :=
  mkSys (heap s) (now s) (alerts s) v (visibleAlerts s) (pendingVisible s)
        (deps1 s) (deps2 s) (cleanup2 s) (timers s) (next_handle s) (log s).
Definition set_visibleAlerts (v : aref) (s : Sys) : Sys :=
  mkSys (heap s) (now s) (alerts s) (renders s) v (pendingVisible s)
        (deps1 s) (deps2 s) (cleanup2 s) (timers s) (next_handle s) (log s).
Definition set_pendingVisible (v : option aref) (s : Sys) : Sys :=
  mkSys (heap s) (now s) (alerts s) (renders s) (visibleAlerts s) v
        (deps1 s) (deps2 s) (cleanup2 s) (timers s) (next_handle s) (log s).
Definition set_deps1 (v : option aref) (s : Sys) : Sys :=
  mkSys (heap s) (now s) (alerts s) (renders s) (visibleAlerts s) (pendingVisible s)
        v (deps2 s) (cleanup2 s) (timers s) (next_handle s) (log s).
Definition set_deps2 (v : option (aref * nat)) (s : Sys) : Sys :=
  mkSys (heap s) (now s) (alerts s) (renders s) (visibleAlerts s) (pendingVisible s)
        (deps1 s) v (cleanup2 s) (timers s) (next_handle s) (log s).
Definition set_cleanup2 (v : option nat) (s : Sys) : Sys :=
  mkSys (heap s) (now s) (alerts s) (renders s) (visibleAlerts s) (pendingVisible s)
        (deps1 s) (deps2 s) v (timers s) (next_handle s) (log s).
Definition set_timers (v : list Timer) (s : Sys) : Sys :=
  mkSys (heap s) (now s) (alerts s) (renders s) (visibleAlerts s) (pendingVisible s)
        (deps1 s) (deps2 s) (cleanup2 s) v (next_handle s) (log s).
Definition set_next_handle (v : nat) (s : Sys) : Sys :=
  mkSys (heap s) (now s) (alerts s) (renders s) (visibleAlerts s) (pendingVisible s)
        (deps1 s) (deps2 s) (cleanup2 s) (timers s) v (log s).
Definition set_log (v : list Event) (s : Sys) : Sys :=
  mkSys (heap s) (now s) (alerts s) (renders s) (visibleAlerts s) (pendingVisible s)
        (deps1 s) (deps2 s) (cleanup2 s) (timers s) (next_handle s) v.

(** The contents of the two arrays held in state. *)
Definition store (s : Sys) : list Alert := deref (heap s) (alerts s).
Definition visible (s : Sys) : list Alert := deref (heap s) (visibleAlerts s).

(** *** The runtime: timeouts *)

Definition setTimeout (va : aref) (od : nat) (delay : N) (s : Sys) : nat * Sys :=
  let h := next_handle s in
  (h, set_next_handle (S h)
        (set_timers (timers s ++ [mkTimer h (now s + delay)%N va od]) s)).

Definition clearTimeout (h : nat) (s : Sys) : Sys :=
  set_timers (filter (λ t, handle t ≠ h) (timers s)) s.

(** The pending timeout that is due first (the older one on a tie). *)
Definition next_due (ts : list Timer) : option Timer :=
  foldr (λ t acc,
           match acc with
           | Some u => if (deadline u <? deadline t)%N then Some u else Some t
           | None => Some t
           end) None ts.

(** *** Dashboard *)

(** [setAlerts(updater)]: the updater builds a new array, which differs
    from the old state, so [Dashboard] renders again and with that makes a
    new [dismissAlert] closure, the [onDismiss] prop of the component. *)
Definition setAlerts (updater : list Alert → list Alert) (s : Sys) : Sys :=
  let r := length (heap s) in
  set_renders (S (renders s))
    (set_alerts r (set_heap (heap s ++ [updater (store s)]) s)).

(** *** AlertNotifications *)

Definition maxAlerts : Z := 3.
Definition audioEnabled : bool := true.
Definition ttlMs : N := 10000.

Definition playAlertSound (ty : JsVal) (s : Sys) : Sys :=
  if negb audioEnabled then s else set_log (log s ++ [Sound ty]) s.

(** The first effect, of a render that saw [va] as [visibleAlerts]. *)
Definition effect_alerts (va : aref) (s : Sys) : Sys :=
  let recent := recentAlerts maxAlerts (store s) in
  let r := length (heap s) in
  let s' := set_pendingVisible (Some r) (set_heap (heap s ++ [recent]) s) in
  match recent with
  | a :: _ =>
      if obj_neq a (deref (heap s') va !! 0) then playAlertSound (type a) s' else s'
  | [] => s'
  end.

(** The second effect, of a render that saw [va] as [visibleAlerts] and
    the closure [od] as [onDismiss]. *)
Definition effect_timer (va : aref) (od : nat) (s : Sys) : Sys :=
  if bool_decide (length (deref (heap s) va) = 0) then set_cleanup2 None s
  else
    let '(h, s') := setTimeout va od ttlMs s in
    set_cleanup2 (Some h) s'.

Definition run_cleanup2 (s : Sys) : Sys :=
  match cleanup2 s with
  | Some h => set_cleanup2 None (clearTimeout h s)
  | None => s
  end.

(** One render of the component and the effects after it: the cleanups of
    the effects whose dependencies changed, then those effects in order. *)
Definition commit (s : Sys) : Sys :=
  let va := visibleAlerts s in
  let od := renders s in
  let run1 := bool_decide (deps1 s ≠ Some (alerts s)) in
  let run2 := bool_decide (deps2 s ≠ Some (va, od)) in
  let s1 := if run2 then run_cleanup2 s else s in
  let s2 := if run1 then effect_alerts va (set_deps1 (Some (alerts s1)) s1) else s1 in
  if run2 then effect_timer va od (set_deps2 (Some (va, od)) s2) else s2.

(** The render caused by a queued [setVisibleAlerts], if the new state
    differs from the old one. *)
Definition flush (s : Sys) : Sys :=
  match pendingVisible s with
  | Some r =>
      if bool_decide (r = visibleAlerts s) then set_pendingVisible None s
      else commit (set_visibleAlerts r (set_pendingVisible None s))
  | None => s
  end.

Definition settle (s : Sys) : Sys := flush (commit s).

(** [onDismiss(id)], that is [dismissAlert(id)] of [Dashboard]. *)
Definition onDismiss (i : JsVal) (s : Sys) : Sys :=
  settle (setAlerts (dismissAlert i) (set_log (log s ++ [DismissCall i]) s)).

(** The callback of the timeout. *)
Definition timer_callback (t : Timer) (s : Sys) : Sys :=
  match last (deref (heap s) (t_visibleAlerts t)) with
  | Some a => onDismiss (id a) s
  | None => s
  end.

(** *** What can happen to the mounted application *)

(** [Rerender] stands for a change of any other state of [Dashboard]
    ([setStatsVisible], [setGlitchActive], ...): the store is left alone
    but [Dashboard] renders and passes a new [dismissAlert] closure down.
    [Wait ms] lets [ms] milliseconds pass, or less when a timeout is due
    before: then the clock stops there and the callback runs. *)
Inductive Op : Type :=
  | Add (alert : Alert)        (* a producer calls addAlert(alert) *)
  | Dismiss (i : JsVal)        (* a close button calls onDismiss(i) *)
  | Rerender
  | Wait (ms : N).

Definition wait (d : N) (s : Sys) : Sys :=
  match next_due (timers s) with
  | Some t =>
      if (deadline t <=? now s + d)%N then
        timer_callback t
          (set_timers (filter (λ u, u ≠ t) (timers s))
             (set_now (N.max (now s) (deadline t)) s))
      else set_now (now s + d)%N s
  | None => set_now (now s + d)%N s
  end.

Definition step (s : Sys) (op : Op) : Sys :=
  match op with
  | Add alert => settle (setAlerts (addAlert alert) s)
  | Dismiss i => onDismiss i s
  | Rerender => settle (set_renders (S (renders s)) s)
  | Wait d => wait d s
  end.

Definition run (ops : list Op) (s : Sys) : Sys := foldl step s ops.

(** Before the first render: both states hold their initial [[]]. *)
Definition unmounted : Sys :=
  {| heap := [[]; []]; now := 0%N; alerts := 0; renders := 0;
     visibleAlerts := 1; pendingVisible := None;
     deps1 := None; deps2 := None; cleanup2 := None;
     timers := []; next_handle := 0; log := [] |}.

Definition mounted : Sys := settle unmounted.

Definition reachable (s : Sys) : Prop := ∃ ops, s = run ops mounted.

(** ** The operations as the specification words them *)

(** "removes the first entry whose id equals the argument" *)
Fixpoint dismiss_first (i : JsVal) (prev : list Alert) : list Alert :=
  match prev with
  | [] => []
  | alert :: rest =>
      if strict_eq (id alert) i then rest else alert :: dismiss_first i rest
  end.

(** "the first min(n, storeLength) entries" *)
Definition visible_spec (n : Z) (l : list Alert) : list Alert :=
  take (Z.to_nat (Z.min n (Z.of_nat (length l)))) l.

(** The store after a sequence of [addAlert] calls. *)
Definition add_all (adds : list Alert) (prev : list Alert) : list Alert :=
  foldl (λ st alert, addAlert alert st) prev adds.

(** The kinds of the sounds in a log. *)
Definition sounds (l : list Event) : list JsVal :=
  omap (λ e, match e with Sound ty => Some ty | DismissCall _ => None end) l.

(** The calls of [onDismiss] in a log. *)
Definition dismissals (l : list Event) : list JsVal :=
  omap (λ e, match e with DismissCall i => Some i | Sound _ => None end) l.

(** The sound owed when the head of the store goes from that of [old] to
    that of [new]: one for a head that is there and is another object than
    before. *)
Definition new_head_sound (old new : list Alert) : list JsVal :=
  match head new with
  | Some h => if obj_neq h (head old) then [type h] else []
  | None => []
  end.

Definition is_wait (op : Op) : bool :=
  match op with Wait _ => true | _ => false end.




(** ** Sample alerts *)

Definition sample (n : nat) (i : JsVal) (ty : string) (msg : JsVal) : Alert :=
  {| ref := n; id := i; type := JStr ty; title := JUndefined;
     message := msg; details := JUndefined; timestamp := JUndefined |}.

Definition alertA : Alert := sample 1 (JNum 1) "info" (JStr "A").
Definition alertB : Alert := sample 2 (JNum 2) "success" (JStr "B").
Definition alertC : Alert := sample 3 (JNum 3) "buy" (JStr "C").
Definition alertD : Alert := sample 4 (JNum 4) "sell" (JStr "D").
Definition alertE : Alert := sample 5 (JNum 5) "error" (JStr "E").
Definition alertF : Alert := sample 6 (JNum 6) "warning" (JStr "F").
(** Another object with the id of [alertA]: two alerts made within the same
    millisecond. *)
Definition alertA' : Alert := sample 7 (JNum 1) "info" (JStr "A again").
(** An alert without [message] and [type]. *)
Definition malformed : Alert :=
  {| ref := 8; id := JNum 8; type := JUndefined; title := JUndefined;
     message := JUndefined; details := JUndefined; timestamp := JUndefined |}.

(** ** Settled states *)

(** What holds between two events, as far as the next render needs it:
    nothing is queued, the effects have seen the current state, and the
    cleanup of the second effect clears whatever timeout is pending. *)
Record Settled (s : Sys) : Prop := {
  st_alerts : alerts s < length (heap s);
  st_visible : visibleAlerts s < length (heap s);
  st_pending : pendingVisible s = None;
  st_deps1 : deps1 s = Some (alerts s);
  st_deps2 : deps2 s = Some (visibleAlerts s, renders s);
  st_clear :
    match cleanup2 s with
    | Some h => filter (λ t, handle t ≠ h) (timers s) = []
    | None => timers s = []
    end }.

(** The pending timeouts of a settled state: none for an empty window,
    else the one armed by the last render, with that render's window and
    [onDismiss]. *)
Definition timer_ok (s : Sys) : Prop :=
  match visible s with
  | [] => timers s = [] ∧ cleanup2 s = None
  | _ :: _ =>
      ∃ h dl, timers s = [mkTimer h dl (visibleAlerts s) (renders s)] ∧
              cleanup2 s = Some h ∧ h < next_handle s ∧
              (now s ≤ dl ≤ now s + ttlMs)%N
  end.

Record Inv (s : Sys) : Prop := {
  inv_settled : Settled s;
  inv_copy : alerts s < visibleAlerts s;
  inv_visible : visible s = recentAlerts maxAlerts (store s);
  inv_capacity : length (store s) ≤ 5;
  inv_timer : timer_ok s }.

(** ** The outcome of the renders, in closed form *)

(** The state after [setAlerts(updater)] and the renders that follow. *)
Definition after_setAlerts (updater : list Alert → list Alert) (s : Sys) : Sys :=
  let st := updater (store s) in
  let recent := recentAlerts maxAlerts st in
  let r := length (heap s) in
  let nh := match visible s with [] => next_handle s | _ :: _ => S (next_handle s) end in
  {| heap := heap s ++ [st; recent];
     now := now s;
     alerts := r;
     renders := S (renders s);
     visibleAlerts := S r;
     pendingVisible := None;
     deps1 := Some r;
     deps2 := Some (S r, S (renders s));
     cleanup2 := match recent with [] => None | _ :: _ => Some nh end;
     timers := match recent with
               | [] => []
               | _ :: _ => [mkTimer nh (now s + ttlMs)%N (S r) (S (renders s))]
               end;
     next_handle := match recent with [] => nh | _ :: _ => S nh end;
     log := log s ++ (Sound <$> new_head_sound (visible s) recent) |}.

(** The state after a render of [Dashboard] that leaves [alerts] alone. *)
Definition after_rerender (s : Sys) : Sys :=
  let od := S (renders s) in
  let s' := set_deps2 (Some (visibleAlerts s, od)) (set_renders od s) in
  match visible s with
  | [] => set_cleanup2 None (set_timers [] s')
  | _ :: _ =>
      set_cleanup2 (Some (next_handle s))
        (set_next_handle (S (next_handle s))
           (set_timers [mkTimer (next_handle s) (now s + ttlMs)%N (visibleAlerts s) od] s'))
  end.

(** Unfolds the setters and the fields of a state. *)
Ltac sys_simpl :=
  cbv beta iota delta
    [set_heap set_now set_alerts set_renders set_visibleAlerts
     set_pendingVisible set_deps1 set_deps2 set_cleanup2 set_timers
     set_next_handle set_log heap now alerts renders visibleAlerts
     pendingVisible deps1 deps2 cleanup2 timers next_handle log store visible] in *.

(** ** What the component draws *)

(** [ALERT_TYPES] *)
Module ALERT_TYPES.
Definition BUY : string := "buy".
Definition SELL : string := "sell".
Definition ERROR : string := "error".
Definition WARNING : string := "warning".
Definition INFO : string := "info".
Definition SUCCESS : string := "success".
End ALERT_TYPES.

Record AlertStyle : Type := mkStyle {
  bgColor : string;
  borderColor : string;
  textColor : string;
  icon : string;
  glowColor : string }.

#[global] Instance AlertStyle_eq_dec : EqDecision AlertStyle.
Proof. solve_decision. Defined.

(** [getAlertStyle]: a [switch] compares with [===], case after case;
    [INFO] shares the [default] branch. *)
Definition getAlertStyle (ty : JsVal) : AlertStyle :=
  if strict_eq ty (JStr ALERT_TYPES.BUY) then
    {| bgColor := "bg-gradient-to-r from-green-900/90 to-green-800/90";
       borderColor := "border-green-500";
       textColor := "text-green-400";
       icon := "🚀";
       glowColor := "shadow-green-500/30" |}
  else if strict_eq ty (JStr ALERT_TYPES.SELL) then
    {| bgColor := "bg-gradient-to-r from-red-900/90 to-red-800/90";
       borderColor := "border-red-500";
       textColor := "text-red-400";
       icon := "💰";
       glowColor := "shadow-red-500/30" |}
  else if strict_eq ty (JStr ALERT_TYPES.ERROR) then
    {| bgColor := "bg-gradient-to-r from-red-900/90 to-red-800/90";
       borderColor := "border-red-500";
       textColor := "text-red-400";
       icon := "⚠️";
       glowColor := "shadow-red-500/30" |}
  else if strict_eq ty (JStr ALERT_TYPES.WARNING) then
    {| bgColor := "bg-gradient-to-r from-yellow-900/90 to-yellow-800/90";
       borderColor := "border-yellow-500";
       textColor := "text-yellow-400";
       icon := "⚠️";
       glowColor := "shadow-yellow-500/30" |}
  else if strict_eq ty (JStr ALERT_TYPES.SUCCESS) then
    {| bgColor := "bg-gradient-to-r from-green-900/90 to-green-800/90";
       borderColor := "border-green-500";
       textColor := "text-green-400";
       icon := "✅";
       glowColor := "shadow-green-500/30" |}
  else
    {| bgColor := "bg-gradient-to-r from-blue-900/90 to-indigo-800/90";
       borderColor := "border-blue-500";
       textColor := "text-blue-400";
       icon := "ℹ️";
       glowColor := "shadow-blue-500/30" |}.

(** [s.replace(pat, rep)] with a string pattern: the first occurrence of
    [pat] in [s] is replaced, and [s] is returned as it is when there is
    none. *)
Fixpoint js_replace (pat rep s : string) : string :=
  if String.prefix pat s then
    rep +:+ String.substring (String.length pat)
              (String.length s - String.length pat) s
  else
    match s with
    | EmptyString => EmptyString
    | String c s' => String c (js_replace pat rep s')
    end.

(** The class of the progress bar:
    [textColor.replace('text-', 'bg-')]. *)
Definition progressClass (ty : JsVal) : string :=
  js_replace "text-" "bg-" (textColor (getAlertStyle ty)).

(** Whether a value counts as true in [v && ...] and [v || ...]. *)
Definition truthy (v : JsVal) : bool :=
  match v with
  | JUndefined | JNull | JNaN => false
  | JBool b => b
  | JNum n => negb (bool_decide (n = 0%Z))
  | JStr s => negb (bool_decide (s = ""))
  end.

(** What React shows for an expression in braces: text for a string or a
    number, nothing for [undefined], [null] and the booleans; [Element v]
    is the markup written behind [v &&], around the text of [v]. *)
Inductive Node : Type :=
  | Nothing
  | Text (v : JsVal)
  | Element (v : JsVal).

#[global] Instance Node_eq_dec : EqDecision Node.
Proof. solve_decision. Defined.

Definition child (v : JsVal) : Node :=
  match v with
  | JUndefined | JNull | JBool _ => Nothing
  | _ => Text v
  end.

(** [{v && <markup>{v}</markup>}] *)
Definition guarded (v : JsVal) : Node :=
  if truthy v then Element v else child v.

(** One [motion.div] of the list. *)
Record Card : Type := mkCard {
  key : JsVal;                 (* key={alert.id} *)
  card_style : AlertStyle;     (* getAlertStyle(alert.type) *)
  isNew : bool;                (* index === 0 *)
  card_title : Node;           (* alert.title && <h3>...</h3> *)
  card_message : Node;         (* <p>{alert.message}</p> *)
  card_details : Node;         (* alert.details && <div>...</div> *)
  card_timestamp : Node;       (* alert.timestamp || new Date().toLocaleTimeString() *)
  card_progress : string;      (* textColor.replace('text-', 'bg-') *)
  close_id : JsVal }.          (* onClick: onDismiss(alert.id) *)

(** [visibleAlerts.map((alert, index) => ...)]; [clock] is what
    [new Date().toLocaleTimeString()] returns during this render. *)
Definition render (clock : string) (visibleAlerts : list Alert) : list Card :=
  imap (λ index alert,
          {| key := id alert;
             card_style := getAlertStyle (type alert);
             isNew := bool_decide (index = 0);
             card_title := guarded (title alert);
             card_message := child (message alert);
             card_details := guarded (details alert);
             card_timestamp :=
               child (if truthy (timestamp alert) then timestamp alert
                      else JStr clock);
             card_progress := progressClass (type alert);
             close_id := id alert |})
       visibleAlerts.

(** A click on the close button of the [k]-th card drawn. *)
Definition click_close (clock : string) (k : nat) (s : Sys) : Sys :=
  match render clock (visible s) !! k with
  | Some card => step s (Dismiss (close_id card))
  | None => s
  end.

(** ** Expiry, one alert after the other *)

(** Ids that tell the entries of a store apart: no two entries share one
    and each equals itself (is not [NaN]). *)
Definition distinct_ids (l : list Alert) : Prop :=
  NoDup (id <$> l) ∧ ∀ alert, alert ∈ l → strict_eq (id alert) (id alert) = true.

(** The order in which the rolling timeout takes the entries of a store:
    from the third on, newest first, and then the second and the first. *)
Definition expiry_order (l : list Alert) : list Alert :=
  drop 2 l ++ reverse (take 2 l).

Definition is_add (op : Op) : bool :=
  match op with Add _ => true | _ => false end.

(** ** Numbers with a fraction *)

(** A number value: a finite one stands for its exact (rational) value;
    truthiness, sign and comparison, the operations used on them here, are
    exact on doubles. *)
Inductive JsNumber : Type :=
  | Finite (q : Qcanon.Qc)
  | NotANumber
  | Infinite (negative : bool).

Definition decimal (num : Z) (den : positive) : JsNumber :=
  Finite (Qcanon.Q2Qc (QArith_base.Qmake num den)).

(** ** The producers of [Dashboard] *)

(** What the handlers take from the runtime: the wall clock at the mount
    (so that [Date.now()] is [mountedAt] plus the clock of the model), the
    text [new Date().toLocaleTimeString()] gives at a time, and the text
    [x.toFixed(digits)] gives for a number. *)
Record Runtime : Type := mkRuntime {
  mountedAt : N;
  toLocaleTimeString : N → string;
  toFixed : JsNumber → nat → string }.

(** A value inside a template literal. *)
Definition to_string (v : JsVal) : string :=
  match v with
  | JUndefined => "undefined"
  | JNull => "null"
  | JBool true => "true"
  | JBool false => "false"
  | JNum n => pretty n
  | JNaN => "NaN"
  | JStr s => s
  end.

(** A token object, with the fields that the code modelled here reads;
    [token_ref] is its identity.  [priceUSD] is [None] when the field is
    missing or holds no number; [priceChange24h] is a number, or [None]
    when it is missing. *)
Record Token : Type := mkToken {
  token_ref : nat;
  address : JsVal;
  name : JsVal;
  symbol : JsVal;
  priceUSD : option JsNumber;
  priceChange24h : option JsNumber }.

Record Dash : Type := mkDash {
  sys : Sys;                       (* alerts, and the component below *)
  isLoading : bool;
  tokens : list Token;
  activeToken : option Token;
  walletBalance : JsNumber;
  isConnected : bool;
  glitchActive : bool;
  statsVisible : bool;
  next_ref : nat }.                (* objects made so far *)

Definition set_sys (v : Sys) (d : Dash) : Dash :=
  mkDash v (isLoading d) (tokens d) (activeToken d) (walletBalance d)
         (isConnected d) (glitchActive d) (statsVisible d) (next_ref d).

(** [Date.now()] *)
Definition dateNow (rt : Runtime) (d : Dash) : N := (mountedAt rt + now (sys d))%N.

(** The object literals handed to [addAlert]. *)
Definition walletAlert (rt : Runtime) (d : Dash) : Alert :=
  {| ref := next_ref d;
     id := JNum (Z.of_N (dateNow rt d));
     type := JStr "success";
     title := JStr "WALLET CONNECTED";
     message := JStr "Successfully connected to wallet";
     details := JStr "Balance: 1.234 SOL";
     timestamp := JStr (toLocaleTimeString rt (dateNow rt d)) |}.

Definition selectedAlert (rt : Runtime) (token : Token) (price : JsNumber)
    (d : Dash) : Alert :=
  {| ref := next_ref d;
     id := JNum (Z.of_N (dateNow rt d));
     type := JStr "info";
     title := JStr ("SELECTED " +:+ to_string (symbol token));
     message := JStr ("Analyzing " +:+ to_string (name token));
     details := JStr ("Price: $" +:+ toFixed rt price 8);
     timestamp := JStr (toLocaleTimeString rt (dateNow rt d)) |}.

Definition initializedAlert (rt : Runtime) (d : Dash) : Alert :=
  {| ref := next_ref d;
     id := JNum (Z.of_N (dateNow rt d));
     type := JStr "info";
     title := JStr "DASHBOARD INITIALIZED";
     message := JStr "System connected to Solana network";
     details := JStr "All components operational";
     timestamp := JStr (toLocaleTimeString rt (dateNow rt d)) |}.

Definition sampleTokens : list Token :=
  [ mkToken 1 (JStr "token1") (JStr "RetroMoon") (JStr "RMOON")
            (Some (decimal 152 10000000)) (Some (decimal 125 10));
    mkToken 2 (JStr "token2") (JStr "WaveVapor") (JStr "VAPOR")
            (Some (decimal 789 100000000)) (Some (decimal (-37) 10));
    mkToken 3 (JStr "token3") (JStr "PixelPunk") (JStr "PXLP")
            (Some (decimal 935 10000000)) (Some (decimal 268 10));
    mkToken 4 (JStr "token4") (JStr "SynthSol") (JStr "SYNTH")
            (Some (decimal 127 1000000)) (Some (decimal 42 10)) ].

(** What a state change of [Dashboard] other than [setAlerts] does below:
    a render, when the state did change. *)
Definition rerender_if (changed : bool) (s : Sys) : Sys :=
  if changed then step s Rerender else s.

(** [handleConnectWallet] *)
Definition handleConnectWallet (rt : Runtime) (d : Dash) : Dash :=
  if isConnected d then d
  else
    {| sys := step (sys d) (Add (walletAlert rt d));
       isLoading := isLoading d;
       tokens := tokens d;
       activeToken := activeToken d;
       walletBalance := decimal 1234 1000;
       isConnected := true;
       glitchActive := glitchActive d;
       statsVisible := statsVisible d;
       next_ref := S (next_ref d) |}.

(** [handleTokenSelect(token)].  [token.priceUSD.toFixed(8)] throws a
    [TypeError] when [priceUSD] is no number; that happens while the
    argument of [addAlert] is built, after the other updates were queued,
    so these are applied and no alert is added. *)
Definition handleTokenSelect (rt : Runtime) (token : Token) (d : Dash)
    : Dash * option string :=
  let changed :=
    negb (bool_decide (token_ref <$> activeToken d = Some (token_ref token)))
    || negb (glitchActive d) in
  match priceUSD token with
  | Some price =>
      ({| sys := step (sys d) (Add (selectedAlert rt token price d));
          isLoading := isLoading d;
          tokens := tokens d;
          activeToken := Some token;
          walletBalance := walletBalance d;
          isConnected := isConnected d;
          glitchActive := true;
          statsVisible := statsVisible d;
          next_ref := S (next_ref d) |}, None)
  | None =>
      ({| sys := rerender_if changed (sys d);
          isLoading := isLoading d;
          tokens := tokens d;
          activeToken := Some token;
          walletBalance := walletBalance d;
          isConnected := isConnected d;
          glitchActive := true;
          statsVisible := statsVisible d;
          next_ref := next_ref d |}, Some "TypeError")
  end.

(** The callback of the timeout of [loadData]. *)
Definition loadData_done (rt : Runtime) (d : Dash) : Dash :=
  {| sys := step (sys d) (Add (initializedAlert rt d));
     isLoading := false;
     tokens := sampleTokens;
     activeToken := head sampleTokens;
     walletBalance := decimal 1234 1000;
     isConnected := true;
     glitchActive := glitchActive d;
     statsVisible := statsVisible d;
     next_ref := S (next_ref d) |}.

(** [setGlitchActive(b)] and [setStatsVisible(true)], from the timeouts
    and the interval of [Dashboard]. *)
Definition setGlitchActive (b : bool) (d : Dash) : Dash :=
  {| sys := rerender_if (negb (bool_decide (glitchActive d = b))) (sys d);
     isLoading := isLoading d; tokens := tokens d;
     activeToken := activeToken d; walletBalance := walletBalance d;
     isConnected := isConnected d; glitchActive := b;
     statsVisible := statsVisible d; next_ref := next_ref d |}.

Definition setStatsVisible (b : bool) (d : Dash) : Dash :=
  {| sys := rerender_if (negb (bool_decide (statsVisible d = b))) (sys d);
     isLoading := isLoading d; tokens := tokens d;
     activeToken := activeToken d; walletBalance := walletBalance d;
     isConnected := isConnected d; glitchActive := glitchActive d;
     statsVisible := b; next_ref := next_ref d |}.

(** What can happen to [Dashboard].  The timeouts and the interval that
    only set [glitchActive] and [statsVisible], and the timeout of
    [loadData], are events of their own here: they may come at any time,
    which covers the times at which they are due. *)
Inductive DOp : Type :=
  | ClickConnect                 (* Header: onConnectWallet *)
  | ClickToken (token : Token)   (* TradeDashboard: onTokenSelect(token) *)
  | LoadDone
  | Glitch (b : bool)
  | StatsOn
  | CloseCard (k : nat)          (* the close button of the k-th card *)
  | Tick (ms : N).

Definition dstep (rt : Runtime) (d : Dash) (op : DOp) : Dash :=
  match op with
  | ClickConnect => handleConnectWallet rt d
  | ClickToken token => (handleTokenSelect rt token d).1
  | LoadDone => loadData_done rt d
  | Glitch b => setGlitchActive b d
  | StatsOn => setStatsVisible true d
  | CloseCard k =>
      set_sys (click_close (toLocaleTimeString rt (dateNow rt d)) k (sys d)) d
  | Tick ms => set_sys (step (sys d) (Wait ms)) d
  end.

Definition drun (rt : Runtime) (ops : list DOp) (d : Dash) : Dash :=
  foldl (dstep rt) d ops.

(** [Dashboard] after its first render. *)
Definition dmounted : Dash :=
  {| sys := mounted; isLoading := true; tokens := []; activeToken := None;
     walletBalance := Finite (Qc_of_Z 0); isConnected := false;
     glitchActive := false; statsVisible := false; next_ref := 0 |}.

Definition dreachable (rt : Runtime) (d : Dash) : Prop :=
  ∃ ops, d = drun rt ops dmounted.

(** The events that call [addAlert]. *)
Definition produces (op : DOp) : bool :=
  match op with
  | ClickConnect | ClickToken _ | LoadDone => true
  | _ => false
  end.

(** A trace in which the clock moves between two events that call
    [addAlert]; [moved] tells whether it has since the last one. *)
Fixpoint spaced_from (moved : bool) (ops : list DOp) : bool :=
  match ops with
  | [] => true
  | op :: ops' =>
      if produces op then moved && spaced_from false ops'
      else
        spaced_from
          (moved || match op with Tick ms => bool_decide (0 < ms)%N | _ => false end)
          ops'
  end.

Definition is_wallet_alert (alert : Alert) : Prop :=
  title alert = JStr "WALLET CONNECTED".

(** A runtime to run examples with. *)
Definition sampleRuntime : Runtime :=
  {| mountedAt := 1700000000000;
     toLocaleTimeString := λ t, pretty t;
     toFixed := λ _ _, "0.00000000" |}.

(** The timeouts pending are due later than now. *)
Definition Future (s : Sys) : Prop :=
  ∀ t, t ∈ timers s → (now s < deadline t)%N.

(** What holds of [Dashboard] between events: the ids in the store are
    values of [Date.now()] not later than now, the alerts are objects made
    before, there is no wallet alert before the connection and one at most
    after it, and loading ends connected. *)
Record DInv (rt : Runtime) (d : Dash) : Prop := {
  dinv_sys : Inv (sys d);
  dinv_future : Future (sys d);
  dinv_stamped :
    ∀ a, a ∈ store (sys d) →
         ∃ t, id a = JNum (Z.of_N t) ∧ (t ≤ dateNow rt d)%N;
  dinv_refs : ∀ a, a ∈ store (sys d) → ref a < next_ref d;
  dinv_wallet_none :
    isConnected d = false → filter is_wallet_alert (store (sys d)) = [];
  dinv_wallet_one : length (filter is_wallet_alert (store (sys d))) ≤ 1;
  dinv_loaded : isLoading d = false → isConnected d = true }.

(** Whether an event gets to its call of [addAlert] in a state:
    [handleConnectWallet] when not connected, [handleTokenSelect] when
    [token.priceUSD] is a number, the callback of [loadData] always. *)
Definition calls_addAlert (d : Dash) (op : DOp) : bool :=
  match op with
  | ClickConnect => negb (isConnected d)
  | ClickToken token => bool_decide (is_Some (priceUSD token))
  | LoadDone => true
  | _ => false
  end.

(** Tokens to run examples with: the second sample token, and one that came
    without a price. *)
Definition vapor : Token :=
  mkToken 2 (JStr "token2") (JStr "WaveVapor") (JStr "VAPOR")
          (Some (decimal 789 100000000)) (Some (decimal (-37) 10)).

Definition unpriced : Token :=
  mkToken 9 (JStr "token9") (JStr "GhostCoin") (JStr "GHST") None None.

(** ** The token grid of [TradeDashboard] *)

(** The cards of the grid: [tokens.slice(0, 4)]; [Dashboard] renders
    [TradeDashboard] when loading is over. *)
Definition token_grid (d : Dash) : list Token :=
  if isLoading d then [] else js_slice 0 4 (tokens d).

(** A click on the [k]-th card of the grid: [onTokenSelect(token)]. *)
Definition click_card (rt : Runtime) (k : nat) (d : Dash) : Dash * option string :=
  match token_grid d !! k with
  | Some token => handleTokenSelect rt token d
  | None => (d, None)
  end.

(** ** The loading screen of [App] *)

Module App.

(** [loading], [location.pathname], the clock, and the deadlines of the
    timeouts that wait to call [setLoading(false)]; no effect of [App]
    clears one. *)
Record State : Type := mkState {
  loading : bool;
  pathname : string;
  clock : N;
  timeouts : list N }.

(** After the first render and its two effects: the first sets a timeout
    of 2000 ms, the second calls [setLoading(true)] and sets one of 800. *)
Definition mounted (path : string) : State :=
  {| loading := true; pathname := path; clock := 0;
     timeouts := [2000; 800]%N |}.

Inductive Event : Type :=
  | Navigate (path : string)
  | Wait (ms : N).

(** The second effect runs again when [location.pathname] has changed. *)
Definition navigate (path : string) (a : State) : State :=
  if bool_decide (pathname a = path) then a
  else {| loading := true; pathname := path; clock := clock a;
          timeouts := timeouts a ++ [(clock a + 800)%N] |}.

(** Time passes: the timeouts that are due call [setLoading(false)]. *)
Definition wait (ms : N) (a : State) : State :=
  let t := (clock a + ms)%N in
  {| loading :=
       if bool_decide (filter (λ dl, (dl ≤ t)%N) (timeouts a) = [])
       then loading a else false;
     pathname := pathname a;
     clock := t;
     timeouts := filter (λ dl, ¬ (dl ≤ t)%N) (timeouts a) |}.

Definition step (a : State) (e : Event) : State :=
  match e with
  | Navigate path => navigate path a
  | Wait ms => wait ms a
  end.

Definition run (es : list Event) (a : State) : State := foldl step a es.

Definition reachable (a : State) : Prop :=
  ∃ path es, a = run es (mounted path).

(** While [loading] holds, a timeout is pending that is due within 800 ms;
    the pending ones are due later than now. *)
Definition Pending (a : State) : Prop :=
  (∀ dl, dl ∈ timeouts a → (clock a < dl)%N) ∧
  (loading a = true → ∃ dl, dl ∈ timeouts a ∧ (dl ≤ clock a + 800)%N).

End App.

(** ** The price change of [TradeDashboard] *)

(** [x] as a condition, [Math.abs(x)], [x > n] and [x >= 0] on numbers. *)
Definition number_truthy (x : JsNumber) : bool :=
  match x with
  | Finite q => negb (bool_decide (q = Qc_of_Z 0))
  | NotANumber => false
  | Infinite _ => true
  end.

Definition js_abs (x : JsNumber) : JsNumber :=
  match x with
  | Finite q =>
      Finite (if bool_decide (Qcanon.Qclt q (Qc_of_Z 0)) then Qcanon.Qcopp q else q)
  | NotANumber => NotANumber
  | Infinite _ => Infinite false
  end.

Definition js_gt (x : JsNumber) (n : Z) : bool :=
  match x with
  | Finite q => bool_decide (Qcanon.Qclt (Qc_of_Z n) q)
  | NotANumber => false
  | Infinite negative => negb negative
  end.

Definition js_ge_0 (x : JsNumber) : bool :=
  match x with
  | Finite q => bool_decide (Qcanon.Qcle (Qc_of_Z 0) q)
  | NotANumber => false
  | Infinite negative => negb negative
  end.

(** The state of [TradeDashboard]. *)
Record TD : Type := mkTD {
  priceChange : JsNumber;
  td_glitchActive : bool }.

Definition td_mounted : TD :=
  {| priceChange := Finite (Qc_of_Z 0); td_glitchActive := false |}.

(** The effect on [activeToken]. *)
Definition effect_activeToken (activeToken : option Token) (td : TD) : TD :=
  match activeToken with
  | Some token =>
      match priceChange24h token with
      | Some change =>
          if number_truthy change then
            {| priceChange := change;
               td_glitchActive :=
                 if js_gt (js_abs change) 5 then true else td_glitchActive td |}
          else td
      | None => td
      end
  | None => td
  end.

(** What happens to [TradeDashboard]: a render with another [activeToken]
    (the first render among them), and the timeout that ends the glitch. *)
Inductive TDEvent : Type :=
  | Active (activeToken : option Token)
  | GlitchOff.

Definition td_step (td : TD) (e : TDEvent) : TD :=
  match e with
  | Active activeToken => effect_activeToken activeToken td
  | GlitchOff => {| priceChange := priceChange td; td_glitchActive := false |}
  end.

Definition td_run (es : list TDEvent) (td : TD) : TD := foldl td_step td es.

(** The arrow of the panel of the active token points up on
    [priceChange >= 0], that of a card of the grid on
    [(token.priceChange24h || 0) >= 0]. *)
Definition panel_up (td : TD) : bool := js_ge_0 (priceChange td).

Definition grid_up (token : Token) : bool :=
  js_ge_0 (match priceChange24h token with
           | Some change => if number_truthy change then change else Finite (Qc_of_Z 0)
           | None => Finite (Qc_of_Z 0)
           end).

(** The change that an event makes the panel take over, if any. *)
Definition taken_over (e : TDEvent) : option JsNumber :=
  match e with
  | Active (Some token) =>
      match priceChange24h token with
      | Some change => if number_truthy change then Some change else None
      | None => None
      end
  | _ => None
  end.

(** A token whose price did not change. *)
Definition flat : Token :=
  mkToken 8 (JStr "token8") (JStr "FlatLine") (JStr "FLAT")
          (Some (decimal 1 1000)) (Some (decimal 0 1)).

(** ** The progress bars of [RiskAssessment] *)

(** [x >= n] *)
Definition js_ge (x : JsNumber) (n : Z) : bool :=
  match x with
  | Finite q => bool_decide (Qcanon.Qcle (Qc_of_Z n) q)
  | NotANumber => false
  | Infinite negative => negb negative
  end.

(** [getProgressColor(value, inverted)] *)
Definition getProgressColor (value : JsNumber) (inverted : bool) : string :=
  if inverted then
    if js_ge value 80 then "bg-red-500"
    else if js_ge value 60 then "bg-orange-500"
    else if js_ge value 40 then "bg-yellow-500"
    else "bg-green-500"
  else
    if js_ge value 80 then "bg-green-500"
    else if js_ge value 60 then "bg-yellow-500"
    else if js_ge value 40 then "bg-orange-500"
    else "bg-red-500".

(** The bar of the tax: [getProgressColor(100 - risk.max_tax * 5, true)],
    for a [max_tax] that is an integer, on which the arithmetic of the
    numbers is exact. *)
Definition tax_bar (max_tax : Z) : string :=
  getProgressColor (Finite (Qc_of_Z (100 - max_tax * 5))) true.

(** The colours of the two scales, one against the other. *)
Definition mirror (colour : string) : string :=
  if bool_decide (colour = "bg-red-500") then "bg-green-500"
  else if bool_decide (colour = "bg-orange-500") then "bg-yellow-500"
  else if bool_decide (colour = "bg-yellow-500") then "bg-orange-500"
  else if bool_decide (colour = "bg-green-500") then "bg-red-500"
  else colour.

(** ** The wallet status of [Header] *)

(** What [Header] shows for the wallet: the button CONNECT WALLET when
    not connected, else the balance when it is truthy, else CONNECTED. *)
Inductive WalletStatus : Type :=
  | ConnectButton
  | Balance (walletBalance : JsNumber)
  | Connected.

Definition wallet_status (walletBalance : JsNumber) (isConnected : bool)
    : WalletStatus :=
  if isConnected then
    if number_truthy walletBalance then Balance walletBalance else Connected
  else ConnectButton.

(** A click on the button, when it is there: [onConnectWallet]. *)
Definition click_connect (rt : Runtime) (d : Dash) : Dash :=
  match wallet_status (walletBalance d) (isConnected d) with
  | ConnectButton => handleConnectWallet rt d
  | _ => d
  end.

(** ** [Dashboard] left alone *)

(** The events of [Dashboard] when nobody clicks and loading is over: its
    timeouts, its interval, and time. *)
Definition quiet (op : DOp) : bool :=
  match op with
  | Glitch _ | StatsOn | Tick _ => true
  | _ => false
  end.

(** One period of the glitch interval: it fires and sets the glitch, its
    timeout ends the glitch 800 ms later, and the 14200 ms up to its next
    firing pass.  These pass in two steps, of 10000 and of 4200 ms, as
    [Tick] stops at a timeout of the component that is due. *)
Definition glitch_cycle : list DOp :=
  [Glitch true; Tick 800; Glitch false; Tick 10000; Tick 4200].

Definition glitch_cycles (n : nat) : list DOp :=
  mjoin (replicate n glitch_cycle).

(** Unfolds the fields of a [Dashboard] state that is written out. *)
Ltac dash_simpl :=
  cbn [dstep sys isLoading tokens activeToken walletBalance isConnected
       glitchActive statsVisible next_ref set_sys fst snd] in *.

(** * Properties *)

(** ** Array primitives *)

Lemma js_slice_from_0 {A : Type} (e : Z) (l : list A) :
  js_slice 0 e l =
  take (Z.to_nat (if bool_decide (e < 0)%Z then Z.of_nat (length l) + e else e)%Z) l.
Proof.
  unfold js_slice. rewrite (bool_decide_eq_false_2 (0 < 0)%Z) by lia.
  replace (Z.min 0 (Z.of_nat (length l))) with 0%Z by lia.
  rewrite Z2Nat.inj_0, drop_0.
  case_bool_decide.
  - f_equal. lia.
  - destruct (decide (e ≤ Z.of_nat (length l))%Z).
    + f_equal. lia.
    + rewrite (take_ge l (Z.to_nat e)) by lia. by rewrite take_ge by lia.
Qed.

Lemma js_slice_from_0_nonneg {A : Type} (n : nat) (l : list A) :
  js_slice 0 (Z.of_nat n) l = take n l.
Proof.
  rewrite js_slice_from_0, bool_decide_eq_false_2 by lia.
  by rewrite Nat2Z.id.
Qed.

Lemma js_slice_prefix {A : Type} (e : Z) (l : list A) :
  js_slice 0 e l `prefix_of` l.
Proof. rewrite js_slice_from_0. apply prefix_take. Qed.

(** ** The store updaters *)

Lemma addAlert_cons (alert : Alert) (prev : list Alert) :
  addAlert alert prev = alert :: take 4 prev.
Proof. unfold addAlert, storeCapacity. by rewrite (js_slice_from_0_nonneg 5). Qed.

Lemma addAlert_length (alert : Alert) (prev : list Alert) :
  length (addAlert alert prev) ≤ 5.
Proof. rewrite addAlert_cons. simpl. rewrite length_take. lia. Qed.

Lemma recentAlerts_take (alerts : list Alert) :
  recentAlerts maxAlerts alerts = take 3 alerts.
Proof. unfold recentAlerts, maxAlerts. by rewrite (js_slice_from_0_nonneg 3). Qed.

Lemma dismissAlert_absent (i : JsVal) (prev : list Alert) :
  (∀ alert, alert ∈ prev → strict_eq (id alert) i = false) →
  dismissAlert i prev = prev.
Proof.
  intros Habs. unfold dismissAlert. induction prev as [|a prev IH]; [done|].
  rewrite filter_cons_True.
  - f_equal. apply IH. intros b Hb. apply Habs. by right.
  - unfold strict_neq. rewrite Habs; [done | by left].
Qed.

Lemma dismissAlert_elem_of (i : JsVal) (prev : list Alert) (alert : Alert) :
  alert ∈ dismissAlert i prev ↔ alert ∈ prev ∧ strict_eq (id alert) i = false.
Proof.
  unfold dismissAlert, strict_neq. rewrite list_elem_of_filter, negb_true_iff.
  tauto.
Qed.

Lemma dismissAlert_idemp (i : JsVal) (prev : list Alert) :
  dismissAlert i (dismissAlert i prev) = dismissAlert i prev.
Proof.
  apply dismissAlert_absent. intros a Ha.
  by apply dismissAlert_elem_of in Ha as [_ ?].
Qed.

Lemma dismissAlert_sublist (i : JsVal) (prev : list Alert) :
  dismissAlert i prev `sublist_of` prev.
Proof. apply sublist_filter. Qed.

Lemma dismissAlert_length (i : JsVal) (prev : list Alert) :
  length (dismissAlert i prev) ≤ length prev.
Proof. apply length_filter. Qed.

Lemma dismiss_first_unique (i : JsVal) (prev : list Alert) :
  length (filter (λ alert, strict_eq (id alert) i = true) prev) ≤ 1 →
  dismissAlert i prev = dismiss_first i prev.
Proof.
  induction prev as [|a prev IH]; [done|]. intros Hone.
  unfold dismissAlert in *. rewrite filter_cons in Hone. simpl.
  destruct (strict_eq (id a) i) eqn:Heq.
  - rewrite decide_True in Hone by done. simpl in Hone.
    rewrite filter_cons_False by (unfold strict_neq; rewrite Heq; simpl; congruence).
    apply (dismissAlert_absent i). intros b Hb.
    destruct (strict_eq (id b) i) eqn:Hb'; [|done].
    assert (b ∈ filter (λ alert, strict_eq (id alert) i = true) prev) as Hin
      by (by apply list_elem_of_filter).
    destruct (filter _ prev); [by apply elem_of_nil in Hin | simpl in Hone; lia].
  - rewrite decide_False in Hone by congruence.
    rewrite filter_cons_True by (unfold strict_neq; by rewrite Heq).
    f_equal. by apply IH.
Qed.

(** ** The heap only grows *)

Lemma deref_app_l (h h' : Heap) (r : aref) :
  r < length h → deref (h ++ h') r = deref h r.
Proof. intros Hr. unfold deref. by rewrite lookup_app_l. Qed.

Lemma deref_app_length (h : Heap) (xs : list Alert) (h' : Heap) :
  deref (h ++ xs :: h') (length h) = xs.
Proof. unfold deref. by rewrite list_lookup_middle. Qed.

Lemma deref_app_S_length (h : Heap) (xs ys : list Alert) :
  deref (h ++ [xs; ys]) (S (length h)) = ys.
Proof.
  change (h ++ [xs; ys]) with (h ++ [xs] ++ [ys]). rewrite (assoc_L (++)).
  replace (S (length h)) with (length (h ++ [xs])) by (rewrite length_app; simpl; lia).
  apply deref_app_length.
Qed.

Lemma deref_prefix (h h' : Heap) (r : aref) :
  h `prefix_of` h' → r < length h → deref h' r = deref h r.
Proof. intros [k ->] Hr. by apply deref_app_l. Qed.

(** ** One render *)

Lemma commit_both (s : Sys) :
  deps1 s ≠ Some (alerts s) →
  deps2 s ≠ Some (visibleAlerts s, renders s) →
  commit s =
  effect_timer (visibleAlerts s) (renders s)
    (set_deps2 (Some (visibleAlerts s, renders s))
       (effect_alerts (visibleAlerts s)
          (set_deps1 (Some (alerts s)) (run_cleanup2 s)))).
Proof.
  intros H1 H2. unfold commit.
  rewrite !bool_decide_eq_true_2 by done.
  do 3 f_equal. unfold run_cleanup2. by destruct (cleanup2 s).
Qed.

Lemma commit_timer (s : Sys) :
  deps1 s = Some (alerts s) →
  deps2 s ≠ Some (visibleAlerts s, renders s) →
  commit s =
  effect_timer (visibleAlerts s) (renders s)
    (set_deps2 (Some (visibleAlerts s, renders s)) (run_cleanup2 s)).
Proof.
  intros H1 H2. unfold commit.
  rewrite (bool_decide_eq_false_2 (deps1 s ≠ _)) by (intros Hn; apply Hn, H1).
  by rewrite bool_decide_eq_true_2 by done.
Qed.

Lemma commit_none (s : Sys) :
  deps1 s = Some (alerts s) →
  deps2 s = Some (visibleAlerts s, renders s) →
  commit s = s.
Proof.
  intros H1 H2. unfold commit.
  rewrite (bool_decide_eq_false_2 (deps1 s ≠ _)) by (intros Hn; apply Hn, H1).
  by rewrite (bool_decide_eq_false_2 (deps2 s ≠ _)) by (intros Hn; apply Hn, H2).
Qed.

Lemma clear_own (h : nat) (dl : N) (va od : nat) :
  filter (λ t, handle t ≠ h) [mkTimer h dl va od] = [].
Proof. rewrite filter_cons_False; [done | simpl; by intros Hn]. Qed.

Lemma run_cleanup2_settled (s : Sys) :
  match cleanup2 s with
  | Some h => filter (λ t, handle t ≠ h) (timers s) = []
  | None => timers s = []
  end →
  run_cleanup2 s = set_cleanup2 None (set_timers [] s).
Proof.
  intros Hc. unfold run_cleanup2, clearTimeout. destruct s as [? ? ? ? ? ? ? ? C ? ? ?].
  simpl in *. destruct C; by rewrite Hc.
Qed.

Lemma effect_alerts_eq (va : aref) (s : Sys) :
  va < length (heap s) →
  effect_alerts va s =
  set_log (log s ++ (Sound <$> new_head_sound (deref (heap s) va)
                                 (recentAlerts maxAlerts (store s))))
    (set_pendingVisible (Some (length (heap s)))
       (set_heap (heap s ++ [recentAlerts maxAlerts (store s)]) s)).
Proof.
  intros Hva. unfold effect_alerts, new_head_sound.
  destruct s as [H T A R V P D1 D2 C TS NH L]. sys_simpl.
  rewrite deref_app_l by done.
  destruct (recentAlerts maxAlerts (deref H A)) as [|a recent]; simpl.
  - by rewrite (right_id_L [] (++)).
  - rewrite <- head_lookup. unfold playAlertSound. simpl.
    destruct (obj_neq a (head (deref H va))); simpl; [done|].
    by rewrite (right_id_L [] (++)).
Qed.

Lemma effect_timer_eq (va od : nat) (s : Sys) :
  effect_timer va od s =
  match deref (heap s) va with
  | [] => set_cleanup2 None s
  | _ :: _ =>
      set_cleanup2 (Some (next_handle s))
        (set_next_handle (S (next_handle s))
           (set_timers (timers s ++ [mkTimer (next_handle s) (now s + ttlMs)%N va od]) s))
  end.
Proof. unfold effect_timer, setTimeout. by destruct (deref (heap s) va). Qed.

Lemma settle_setAlerts (updater : list Alert → list Alert) (s : Sys) :
  Settled s → settle (setAlerts updater s) = after_setAlerts updater s.
Proof.
  intros [Ha Hv Hp Hd1 Hd2 Hc]. destruct s as [H T A R V P D1 D2 C TS NH L].
  simpl in *. subst P D1 D2.
  unfold settle, setAlerts, after_setAlerts.
  rewrite commit_both; sys_simpl; [| intros [=]; lia | intros [=]; lia].
  rewrite run_cleanup2_settled by done. sys_simpl.
  rewrite effect_alerts_eq; sys_simpl; [| rewrite length_app; lia].
  rewrite deref_app_length, (deref_app_l H) by done.
  generalize (updater (deref H A)). intros st.
  rewrite <- !(assoc_L (++)). simpl app.
  rewrite length_app. simpl length. rewrite Nat.add_1_r.
  rewrite effect_timer_eq. sys_simpl.
  rewrite (deref_app_l H) by done.
  generalize (L ++ (Sound <$> new_head_sound (deref H V) (recentAlerts maxAlerts st))).
  intros L'.
  assert (S (length H) ≠ V) as Hfresh by lia.
  destruct (deref H V) as [|v vis];
    unfold flush; sys_simpl;
    rewrite (bool_decide_eq_false_2 _ Hfresh);
    (rewrite commit_timer; sys_simpl; [| done | intros [=]; lia]);
    rewrite run_cleanup2_settled by (sys_simpl; first [done | apply clear_own]);
    rewrite effect_timer_eq; sys_simpl;
    rewrite deref_app_S_length;
    by destruct (recentAlerts maxAlerts st).
Qed.

Lemma after_setAlerts_store (updater : list Alert → list Alert) (s : Sys) :
  store (after_setAlerts updater s) = updater (store s).
Proof. unfold after_setAlerts, store at 1. simpl. apply deref_app_length. Qed.

Lemma after_setAlerts_visible (updater : list Alert → list Alert) (s : Sys) :
  visible (after_setAlerts updater s) = recentAlerts maxAlerts (updater (store s)).
Proof. unfold after_setAlerts, visible at 1. simpl. apply deref_app_S_length. Qed.

Lemma after_setAlerts_Inv (updater : list Alert → list Alert) (s : Sys) :
  length (updater (store s)) ≤ 5 → Inv (after_setAlerts updater s).
Proof.
  intros Hcap. split.
  - unfold after_setAlerts.
    split; simpl; try done; try (rewrite length_app; simpl; lia).
    destruct (recentAlerts _ _); [done | apply clear_own].
  - simpl. lia.
  - by rewrite after_setAlerts_visible, after_setAlerts_store.
  - by rewrite after_setAlerts_store.
  - unfold timer_ok. rewrite after_setAlerts_visible.
    unfold after_setAlerts. simpl.
    destruct (recentAlerts _ _); [done|].
    eexists _, _. split_and!; [done | done | lia | lia | lia].
Qed.

Lemma settle_rerender (s : Sys) :
  Settled s → settle (set_renders (S (renders s)) s) = after_rerender s.
Proof.
  intros [Ha Hv Hp Hd1 Hd2 Hc]. destruct s as [H T A R V P D1 D2 C TS NH L].
  simpl in *. subst P D1 D2.
  unfold settle, after_rerender.
  rewrite commit_timer; sys_simpl; [| done | intros [=]; lia].
  rewrite run_cleanup2_settled by done. sys_simpl.
  rewrite effect_timer_eq. sys_simpl.
  by destruct (deref H V).
Qed.

Lemma after_rerender_Inv (s : Sys) : Inv s → Inv (after_rerender s).
Proof.
  intros [[Ha Hv Hp Hd1 Hd2 Hc] Hcopy Hvis Hcap Ht].
  destruct s as [H T A R V P D1 D2 C TS NH L].
  unfold timer_ok, after_rerender in *. sys_simpl.
  destruct (deref H V) as [|v vis] eqn:HV; sys_simpl.
  - split; [split| | | |]; sys_simpl; try done; try congruence.
    unfold timer_ok. sys_simpl. by rewrite HV.
  - split; [split| | | |]; sys_simpl; try done; try congruence.
    + apply clear_own.
    + unfold timer_ok. sys_simpl. rewrite HV.
      eexists _, _. split_and!; [done | done | lia | lia | lia].
Qed.

(** ** Time *)

Lemma wait_no_timer (d : N) (s : Sys) :
  timers s = [] → wait d s = set_now (now s + d)%N s.
Proof. intros Ht. unfold wait. by rewrite Ht. Qed.

Lemma wait_early (d : N) (s : Sys) (t : Timer) :
  timers s = [t] → (now s + d < deadline t)%N →
  wait d s = set_now (now s + d)%N s.
Proof.
  intros Ht Hd. unfold wait. rewrite Ht. simpl.
  by rewrite (proj2 (N.leb_gt _ _)) by done.
Qed.

Lemma wait_due (d : N) (s : Sys) (t : Timer) (oldest : Alert) :
  Settled s →
  timers s = [t] → t_visibleAlerts t = visibleAlerts s →
  last (visible s) = Some oldest →
  (now s ≤ deadline t ≤ now s + d)%N →
  wait d s =
  after_setAlerts (dismissAlert (id oldest))
    (set_log (log s ++ [DismissCall (id oldest)])
       (set_timers [] (set_now (deadline t) s))).
Proof.
  intros Hs Ht Hva Hlast [Hnow Hd]. unfold wait. rewrite Ht. simpl.
  rewrite (proj2 (N.leb_le _ _)) by done.
  rewrite filter_cons_False by (by intros Hn).
  rewrite N.max_r by done. simpl.
  rewrite filter_nil.
  unfold timer_callback. rewrite Hva.
  change (deref (heap (set_timers [] (set_now (deadline t) s))) (visibleAlerts s))
    with (visible s).
  rewrite Hlast. unfold onDismiss. apply settle_setAlerts.
  destruct Hs as [Ha Hv Hp Hd1 Hd2 Hc].
  destruct s as [H T A R V P D1 D2 C TS NH L]. sys_simpl.
  split; sys_simpl; try done. by destruct C.
Qed.

Lemma Inv_timers (s : Sys) :
  Inv s →
  match last (visible s) with
  | None => timers s = []
  | Some _ =>
      ∃ t, timers s = [t] ∧ t_visibleAlerts t = visibleAlerts s ∧
           t_onDismiss t = renders s ∧
           (now s ≤ deadline t ≤ now s + ttlMs)%N
  end.
Proof.
  intros [_ _ _ _ Ht]. unfold timer_ok in Ht.
  destruct (visible s) as [|v vis] eqn:Hvis.
  - simpl. by destruct Ht.
  - destruct Ht as (h & dl & Ht & _ & _ & Hdl).
    destruct (last (v :: vis)) eqn:Hl; [| by apply last_None in Hl].
    eexists. split_and!; [done..|simpl; lia|simpl; lia].
Qed.

Lemma wait_Inv (d : N) (s : Sys) : Inv s → Inv (wait d s).
Proof.
  intros HI. pose proof (Inv_timers s HI) as Ht.
  destruct (last (visible s)) as [oldest|] eqn:Hlast.
  - destruct Ht as (t & Ht & Hva & _ & Hdl).
    destruct (decide (deadline t ≤ now s + d)%N) as [Hdue|Hearly].
    + rewrite (wait_due d s t oldest); [| by destruct HI | done..| lia].
      apply after_setAlerts_Inv.
      change (store (set_log _ _)) with (store s).
      pose proof (dismissAlert_length (id oldest) (store s)).
      pose proof (inv_capacity s HI). lia.
    + rewrite (wait_early d s t) by (done || lia).
      destruct HI as [[Ha Hv Hp Hd1 Hd2 Hc] Hcopy Hvis Hcap Hok].
      destruct s as [H T A R V P D1 D2 C TS NH L]. unfold timer_ok in *. sys_simpl.
      split; [split| | | |]; sys_simpl; try done.
      unfold timer_ok. sys_simpl.
      destruct (deref H V); [done|].
      destruct Hok as (h & dl & -> & ? & ? & ?). simpl in *.
      injection Ht as <-. simpl in *.
      eexists _, _. split_and!; [done | done | lia | lia | lia].
  - rewrite wait_no_timer by done.
    apply last_None in Hlast.
    destruct HI as [[Ha Hv Hp Hd1 Hd2 Hc] Hcopy Hvis Hcap Hok].
    destruct s as [H T A R V P D1 D2 C TS NH L]. unfold timer_ok in *. sys_simpl.
    split; [split| | | |]; sys_simpl; try done.
    unfold timer_ok. sys_simpl. by rewrite Hlast in *.
Qed.

(** ** Every reachable state is settled *)

Lemma step_Add_eq (alert : Alert) (s : Sys) :
  Settled s → step s (Add alert) = after_setAlerts (addAlert alert) s.
Proof. apply settle_setAlerts. Qed.

Lemma step_Dismiss_eq (i : JsVal) (s : Sys) :
  Settled s →
  step s (Dismiss i) =
  after_setAlerts (dismissAlert i) (set_log (log s ++ [DismissCall i]) s).
Proof.
  intros [Ha Hv Hp Hd1 Hd2 Hc]. simpl. unfold onDismiss.
  apply settle_setAlerts. destruct s. by split.
Qed.

Lemma step_Inv (s : Sys) (op : Op) : Inv s → Inv (step s op).
Proof.
  intros HI. pose proof (inv_settled s HI) as Hs. destruct op as [alert|i| |d].
  - rewrite step_Add_eq by done. apply after_setAlerts_Inv, addAlert_length.
  - rewrite step_Dismiss_eq by done. apply after_setAlerts_Inv.
    change (store (set_log _ _)) with (store s).
    pose proof (dismissAlert_length i (store s)).
    pose proof (inv_capacity s HI). lia.
  - simpl. rewrite settle_rerender by done. by apply after_rerender_Inv.
  - by apply wait_Inv.
Qed.

Lemma mounted_Inv : Inv mounted.
Proof.
  split; [split| | | |]; vm_compute; try done; try lia.
Qed.

Lemma run_snoc (ops : list Op) (op : Op) (s : Sys) :
  run (ops ++ [op]) s = step (run ops s) op.
Proof. unfold run. by rewrite foldl_snoc. Qed.

Lemma run_Inv (ops : list Op) (s : Sys) : Inv s → Inv (run ops s).
Proof.
  intros HI. induction ops as [|op ops IH] using rev_ind; [done|].
  rewrite run_snoc. by apply step_Inv.
Qed.

Lemma reachable_Inv (s : Sys) : reachable s → Inv s.
Proof. intros [ops ->]. apply run_Inv, mounted_Inv. Qed.

Lemma reachable_step (s : Sys) (op : Op) : reachable s → reachable (step s op).
Proof. intros [ops ->]. exists (ops ++ [op]). by rewrite run_snoc. Qed.

Lemma reachable_run (s : Sys) (ops : list Op) : reachable s → reachable (run ops s).
Proof.
  intros Hs. induction ops as [|op ops IH] using rev_ind; [done|].
  rewrite run_snoc. by apply reachable_step.
Qed.

(** ** The heap of a settled state only grows *)

Lemma step_heap_prefix (s : Sys) (op : Op) :
  Inv s → heap s `prefix_of` heap (step s op).
Proof.
  intros HI. pose proof (inv_settled s HI) as Hs. destruct op as [alert|i| |d].
  - rewrite step_Add_eq by done. by eexists.
  - rewrite step_Dismiss_eq by done. by eexists.
  - simpl. rewrite settle_rerender by done. unfold after_rerender.
    by destruct (visible s).
  - change (step s (Wait d)) with (wait d s).
    pose proof (Inv_timers s HI) as Ht.
    destruct (last (visible s)) as [oldest|] eqn:Hlast.
    + destruct Ht as (t & Ht & Hva & _ & Hdl).
      destruct (decide (deadline t ≤ now s + d)%N) as [Hdue|Hearly].
      * rewrite (wait_due d s t oldest); [| done..| lia]. by eexists.
      * by rewrite (wait_early d s t) by (done || lia).
    + by rewrite wait_no_timer by done.
Qed.

Lemma run_heap_prefix (ops : list Op) (s : Sys) :
  Inv s → heap s `prefix_of` heap (run ops s).
Proof.
  intros HI. induction ops as [|op ops IH] using rev_ind; [done|].
  rewrite run_snoc. etrans; [apply IH|]. by apply step_heap_prefix, run_Inv.
Qed.

(** ** Sounds *)

Lemma head_recentAlerts (l : list Alert) :
  head (recentAlerts maxAlerts l) = head l.
Proof. rewrite recentAlerts_take. by destruct l. Qed.

Lemma new_head_sound_heads (old old' new new' : list Alert) :
  head old = head old' → head new = head new' →
  new_head_sound old new = new_head_sound old' new'.
Proof. unfold new_head_sound. by intros -> ->. Qed.

Lemma new_head_sound_same (l : list Alert) : new_head_sound l l = [].
Proof.
  unfold new_head_sound. destruct (head l) as [h|]; [|done]. simpl.
  by rewrite bool_decide_eq_true_2.
Qed.

Lemma sounds_app (l k : list Event) : sounds (l ++ k) = sounds l ++ sounds k.
Proof. apply omap_app. Qed.

Lemma sounds_Sound (tys : list JsVal) : sounds (Sound <$> tys) = tys.
Proof. induction tys as [|ty tys IH]; [done|]. simpl. by rewrite <- IH at 2. Qed.

Lemma dismissals_app (l k : list Event) :
  dismissals (l ++ k) = dismissals l ++ dismissals k.
Proof. apply omap_app. Qed.

Lemma dismissals_Sound (tys : list JsVal) : dismissals (Sound <$> tys) = [].
Proof. by induction tys. Qed.

(** The log after [setAlerts(updater)], in terms of the store. *)
Lemma after_setAlerts_log (updater : list Alert → list Alert) (s : Sys) :
  visible s = recentAlerts maxAlerts (store s) →
  log (after_setAlerts updater s) =
  log s ++ (Sound <$> new_head_sound (store s) (updater (store s))).
Proof.
  intros Hvis. unfold after_setAlerts. simpl. do 2 f_equal.
  apply new_head_sound_heads.
  - rewrite Hvis. apply head_recentAlerts.
  - apply head_recentAlerts.
Qed.

(** What an event does to the store and to the log. *)
Lemma step_Add_spec (alert : Alert) (s : Sys) :
  Inv s →
  store (step s (Add alert)) = addAlert alert (store s) ∧
  log (step s (Add alert)) =
    log s ++ (Sound <$> new_head_sound (store s) (addAlert alert (store s))).
Proof.
  intros HI. rewrite step_Add_eq by apply HI. split.
  - apply after_setAlerts_store.
  - apply after_setAlerts_log, HI.
Qed.

Lemma step_Dismiss_spec (i : JsVal) (s : Sys) :
  Inv s →
  store (step s (Dismiss i)) = dismissAlert i (store s) ∧
  log (step s (Dismiss i)) =
    log s ++ DismissCall i ::
      (Sound <$> new_head_sound (store s) (dismissAlert i (store s))).
Proof.
  intros HI. rewrite step_Dismiss_eq by apply HI. split.
  - by rewrite after_setAlerts_store.
  - rewrite after_setAlerts_log by apply HI.
    change (log (set_log ?l _)) with l. change (store (set_log _ ?s)) with (store s).
    by rewrite <- (assoc_L (++)).
Qed.

Lemma step_Rerender_spec (s : Sys) :
  Inv s →
  store (step s Rerender) = store s ∧ log (step s Rerender) = log s.
Proof.
  intros HI. simpl. rewrite settle_rerender by apply HI.
  unfold after_rerender. by destruct (visible s).
Qed.

Lemma wait_due_spec (d : N) (s : Sys) (t : Timer) (oldest : Alert) :
  Inv s → timers s = [t] → last (visible s) = Some oldest →
  (deadline t ≤ now s + d)%N →
  now (wait d s) = deadline t ∧
  store (wait d s) = dismissAlert (id oldest) (store s) ∧
  log (wait d s) =
    log s ++ DismissCall (id oldest) ::
      (Sound <$> new_head_sound (store s) (dismissAlert (id oldest) (store s))).
Proof.
  intros HI Ht Hlast Hdue. pose proof (Inv_timers s HI) as Hts.
  rewrite Hlast, Ht in Hts. destruct Hts as (t' & [= <-] & Hva & _ & Hdl).
  rewrite (wait_due d s t oldest); [| apply HI | done.. | lia].
  split_and!.
  - done.
  - by rewrite after_setAlerts_store.
  - rewrite after_setAlerts_log by apply HI.
    change (log (set_log ?l _)) with l.
    change (store (set_log _ (set_timers _ (set_now _ ?s)))) with (store s).
    by rewrite <- (assoc_L (++)).
Qed.

Lemma step_sounds (s : Sys) (op : Op) :
  Inv s →
  sounds (log (step s op)) =
  sounds (log s) ++ new_head_sound (store s) (store (step s op)).
Proof.
  intros HI. destruct op as [alert|i| |d].
  - destruct (step_Add_spec alert s HI) as [-> ->].
    by rewrite sounds_app, sounds_Sound.
  - destruct (step_Dismiss_spec i s HI) as [-> ->].
    by rewrite sounds_app; simpl; rewrite sounds_Sound.
  - destruct (step_Rerender_spec s HI) as [-> ->].
    by rewrite new_head_sound_same, (right_id_L [] (++)).
  - change (step s (Wait d)) with (wait d s).
    pose proof (Inv_timers s HI) as Ht.
    destruct (last (visible s)) as [oldest|] eqn:Hlast.
    + destruct Ht as (t & Ht & Hva & _ & Hdl).
      destruct (decide (deadline t ≤ now s + d)%N) as [Hdue|Hearly].
      * destruct (wait_due_spec d s t oldest HI Ht Hlast Hdue) as (_ & -> & ->).
        by rewrite sounds_app; simpl; rewrite sounds_Sound.
      * rewrite (wait_early d s t) by (done || lia).
        change (store (set_now _ s)) with (store s).
        by rewrite new_head_sound_same, (right_id_L [] (++)).
    + rewrite wait_no_timer by done.
      change (store (set_now _ s)) with (store s).
      by rewrite new_head_sound_same, (right_id_L [] (++)).
Qed.

(** * The claims *)

(** ** Capacity *)

Lemma add_all_snoc (adds : list Alert) (alert : Alert) (prev : list Alert) :
  add_all (adds ++ [alert]) prev = addAlert alert (add_all adds prev).
Proof. unfold add_all. by rewrite foldl_snoc. Qed.

Lemma add_all_length (adds : list Alert) (prev : list Alert) :
  adds ≠ [] ∨ length prev ≤ 5 → length (add_all adds prev) ≤ 5.
Proof.
  destruct adds as [|alert adds _] using rev_ind.
  - by intros [|].
  - intros _. rewrite add_all_snoc. apply addAlert_length.
Qed.

Lemma addAlert_full (alert oldest : Alert) (kept : list Alert) :
  length (kept ++ [oldest]) = 5 →
  addAlert alert (kept ++ [oldest]) = alert :: kept.
Proof.
  rewrite length_app. simpl. intros Hlen. rewrite addAlert_cons.
  by rewrite take_app_length' by lia.
Qed.

Lemma run_adds_store (adds : list Alert) (s : Sys) :
  Inv s → store (run (Add <$> adds) s) = add_all adds (store s).
Proof.
  intros HI. induction adds as [|alert adds IH] using rev_ind; [done|].
  rewrite fmap_app. simpl. rewrite run_snoc, add_all_snoc, <- IH.
  by apply step_Add_spec, run_Inv.
Qed.

(** C1. After any sequence of [addAlert] calls the store holds at most
    [storeCapacity] = 5 entries (from any store when at least one alert is
    added, and from any store within capacity otherwise); an add to a full
    store drops its last, least recently inserted, entry; and in the
    running application the events of an add are the sound for the new
    head alone: no call of [onDismiss], nothing for the entry dropped. *)
Theorem capacity_invariant
    (s : Sys) (prev adds : list Alert) (alert : Alert) :
  reachable s →
  (adds ≠ [] ∨ length prev ≤ 5 → length (add_all adds prev) ≤ 5) ∧
  (∀ kept oldest,
     prev = kept ++ [oldest] → length prev = 5 →
     addAlert alert prev = alert :: kept) ∧
  store (run (Add <$> adds) s) = add_all adds (store s) ∧
  length (store (run (Add <$> adds) s)) ≤ 5 ∧
  log (step s (Add alert)) =
    log s ++ (if obj_neq alert (head (store s)) then [Sound (type alert)] else []) ∧
  dismissals (log (step s (Add alert))) = dismissals (log s).
Proof.
  intros Hs. pose proof (reachable_Inv s Hs) as HI.
  assert (log (step s (Add alert)) =
          log s ++ (if obj_neq alert (head (store s))
                    then [Sound (type alert)] else [])) as Hlog.
  { destruct (step_Add_spec alert s HI) as [_ ->]. f_equal.
    unfold new_head_sound. rewrite addAlert_cons. simpl.
    by destruct (obj_neq alert (head (store s))). }
  split_and!.
  - apply add_all_length.
  - intros kept oldest -> Hlen. by apply addAlert_full.
  - by apply run_adds_store.
  - apply (inv_capacity _ (run_Inv _ _ HI)).
  - done.
  - rewrite Hlog, dismissals_app.
    destruct (obj_neq alert (head (store s))); simpl; by rewrite (right_id_L [] (++)).
Qed.

Lemma capacity_invariant_witness :
  let s := run [Add alertA; Add alertB; Add alertC; Add alertD; Add alertE] mounted in
  let prev := [alertE; alertD; alertC; alertB; alertA] in
  reachable s ∧
  length (add_all [alertF] prev) ≤ 5 ∧
  addAlert alertF prev = [alertF; alertE; alertD; alertC; alertB] ∧
  dismissals (log (step s (Add alertF))) = dismissals (log s).
Proof.
  intros s prev.
  assert (reachable s) as Hs by (by exists [Add alertA; Add alertB; Add alertC; Add alertD; Add alertE]).
  destruct (capacity_invariant s prev [alertF] alertF Hs)
    as (Hlen & Hdrop & _ & _ & _ & Hdis).
  split_and!.
  - exact Hs.
  - apply Hlen. right. simpl. lia.
  - apply (Hdrop [alertE; alertD; alertC; alertB] alertA); reflexivity.
  - exact Hdis.
Defined.

Example scenario_A :
  let s := run [Add alertA; Add alertB; Add alertC; Add alertD] mounted in
  store s = [alertD; alertC; alertB; alertA] ∧ visible s = [alertD; alertC; alertB].
Proof. by vm_compute. Qed.

Example scenario_B :
  let s := run [Add alertA; Add alertB; Add alertC; Add alertD;
                Add alertE; Add alertF] mounted in
  store s = [alertF; alertE; alertD; alertC; alertB] ∧
  dismissals (log s) = [] ∧
  sounds (log s) = type <$> [alertA; alertB; alertC; alertD; alertE; alertF].
Proof. by vm_compute. Qed.

(** ** The sound *)






Example sound_examples :
  sounds (log (run [Add alertA; Add alertB; Dismiss (JNum 1)] mounted)) =
    [JStr "info"; JStr "success"] ∧
  sounds (log (run [Add alertA; Add alertB; Dismiss (JNum 2)] mounted)) =
    [JStr "info"; JStr "success"; JStr "info"] ∧
  sounds (log (run [Add alertB] mounted)) = [JStr "success"].
Proof. by vm_compute. Qed.

(** ** Dismissal *)

(** The input of C3: two alerts with one id, [alertA'] the newer. *)
Lemma dismiss_colliding_ids_removes_both :
  store (run [Add alertA; Add alertA'] mounted) = [alertA'; alertA] ∧
  strict_eq (id alertA') (JNum 1) = true ∧
  strict_eq (id alertA) (JNum 1) = true ∧
  dismiss_first (JNum 1) [alertA'; alertA] = [alertA] ∧
  dismissAlert (JNum 1) [alertA'; alertA] = [] ∧
  store (run [Add alertA; Add alertA'; Dismiss (JNum 1)] mounted) = [] ∧
  dismissAlert (JNum 1) [alertA'; alertA] ≠ dismiss_first (JNum 1) [alertA'; alertA].
Proof. by vm_compute. Qed.

(** C3, amended.  [dismissAlert(id)] removes every entry whose id equals
    the argument and no other entry: what is left is a subsequence of the
    store, holding just the entries with another id; so entries with
    colliding ids go together.  When at most one entry has that id (ids
    unique), this is the removal of the first such entry. *)
Theorem dismiss_removes_every_match (i : JsVal) (prev : list Alert) :
  (∀ alert, alert ∈ dismissAlert i prev ↔
            alert ∈ prev ∧ strict_eq (id alert) i = false) ∧
  dismissAlert i prev `sublist_of` prev ∧
  (length (filter (λ alert, strict_eq (id alert) i = true) prev) ≤ 1 →
   dismissAlert i prev = dismiss_first i prev).
Proof.
  split_and!.
  - intros alert. apply dismissAlert_elem_of.
  - apply dismissAlert_sublist.
  - apply dismiss_first_unique.
Qed.

Lemma dismiss_removes_every_match_witness :
  let prev := [alertC; alertB; alertA] in
  length (filter (λ alert, strict_eq (id alert) (JNum 2) = true) prev) ≤ 1 ∧
  dismissAlert (JNum 2) prev = dismiss_first (JNum 2) prev.
Proof.
  intros prev.
  assert (length (filter (λ alert, strict_eq (id alert) (JNum 2) = true) prev) ≤ 1)
    as Hone by (vm_compute; lia).
  split; [exact Hone|].
  exact (proj2 (proj2 (dismiss_removes_every_match (JNum 2) prev)) Hone).
Defined.

(** C6. Dismissing an id that no entry has leaves the store as it was,
    in contents and order; in the running application too, where the call
    returns a state (it cannot throw) with the same store and window. *)
Theorem stale_dismiss_ignored (i : JsVal) (prev : list Alert) (s : Sys) :
  (∀ alert, alert ∈ prev → strict_eq (id alert) i = false) →
  reachable s → store s = prev →
  dismissAlert i prev = prev ∧
  store (step s (Dismiss i)) = prev ∧
  visible (step s (Dismiss i)) = visible s.
Proof.
  intros Habs Hs Hprev. pose proof (reachable_Inv s Hs) as HI.
  pose proof (dismissAlert_absent i prev Habs) as Hsame.
  split_and!; [done | |].
  - destruct (step_Dismiss_spec i s HI) as [-> _]. by rewrite Hprev.
  - rewrite (inv_visible _ (step_Inv s (Dismiss i) HI)), (inv_visible _ HI).
    destruct (step_Dismiss_spec i s HI) as [-> _]. by rewrite Hprev, Hsame.
Qed.

Lemma stale_dismiss_ignored_witness :
  let s := run [Add alertA; Add alertB] mounted in
  let unknown := JStr "unknown-id" in
  (∀ alert, alert ∈ [alertB; alertA] → strict_eq (id alert) unknown = false) ∧
  reachable s ∧ store s = [alertB; alertA] ∧
  dismissAlert unknown [alertB; alertA] = [alertB; alertA] ∧
  store (step s (Dismiss unknown)) = [alertB; alertA] ∧
  visible (step s (Dismiss unknown)) = visible s.
Proof.
  intros s unknown.
  assert (∀ alert, alert ∈ [alertB; alertA] → strict_eq (id alert) unknown = false)
    as Habs.
  { intros alert Hin. apply elem_of_cons in Hin as [->|Hin]; [reflexivity|].
    apply elem_of_cons in Hin as [->|Hin]; [reflexivity|].
    by apply elem_of_nil in Hin. }
  assert (reachable s) as Hs by (by exists [Add alertA; Add alertB]).
  assert (store s = [alertB; alertA]) as Hst by (vm_compute; reflexivity).
  split_and!; [exact Habs | exact Hs | exact Hst | ..];
    apply (stale_dismiss_ignored unknown [alertB; alertA] s Habs Hs Hst).
Defined.

(** C7. Dismissing an id twice in a row gives the state that dismissing it
    once gives: the same store, window and sounds played, whether or not
    several entries carry the id. *)
Theorem dismiss_idempotent (i : JsVal) (prev : list Alert) (s : Sys) :
  reachable s →
  dismissAlert i (dismissAlert i prev) = dismissAlert i prev ∧
  store (run [Dismiss i; Dismiss i] s) = store (run [Dismiss i] s) ∧
  visible (run [Dismiss i; Dismiss i] s) = visible (run [Dismiss i] s) ∧
  sounds (log (run [Dismiss i; Dismiss i] s)) = sounds (log (run [Dismiss i] s)).
Proof.
  intros Hs. pose proof (reachable_Inv s Hs) as HI.
  pose proof (step_Inv s (Dismiss i) HI) as HI1.
  pose proof (step_Inv _ (Dismiss i) HI1) as HI2.
  change (run [Dismiss i; Dismiss i] s) with (step (step s (Dismiss i)) (Dismiss i)).
  change (run [Dismiss i] s) with (step s (Dismiss i)).
  assert (store (step (step s (Dismiss i)) (Dismiss i)) = store (step s (Dismiss i)))
    as Hst.
  { destruct (step_Dismiss_spec i _ HI1) as [-> _].
    destruct (step_Dismiss_spec i s HI) as [-> _]. apply dismissAlert_idemp. }
  split_and!.
  - apply dismissAlert_idemp.
  - done.
  - by rewrite (inv_visible _ HI2), (inv_visible _ HI1), Hst.
  - rewrite (step_sounds _ (Dismiss i) HI1), Hst.
    by rewrite new_head_sound_same, (right_id_L [] (++)).
Qed.

Lemma dismiss_idempotent_witness :
  let s := run [Add alertA; Add alertB; Add alertA'] mounted in
  reachable s ∧
  store (run [Dismiss (JNum 1); Dismiss (JNum 1)] s) = store (run [Dismiss (JNum 1)] s).
Proof.
  intros s.
  assert (reachable s) as Hs by (by exists [Add alertA; Add alertB; Add alertA']).
  split; [exact Hs|].
  apply (dismiss_idempotent (JNum 1) [] s Hs).
Defined.

(** ** The visible window *)

(** The input of C4: a negative limit counts from the end of the store, so
    [slice] returns all but the last entry where the specification's
    formula, with [min(-1, 3) = -1], leaves no entry. *)
Lemma visible_negative_limit :
  recentAlerts (-1) [alertC; alertB; alertA] = [alertC; alertB] ∧
  visible_spec (-1) [alertC; alertB; alertA] = [] ∧
  Z.of_nat (length (recentAlerts (-1) [alertC; alertB; alertA])) ≠
    Z.min (-1) (Z.of_nat (length [alertC; alertB; alertA])).
Proof. by vm_compute. Qed.

(** C4, amended.  For a limit [n] that is not negative, the window is the
    first [min(n, storeLength)] entries of the store, in the store's order;
    for every [n] it is a prefix of the store.  In the running application
    the window held by the component is that of limit [maxAlerts] = 3, it
    is an array of its own, and nothing that happens later changes the
    contents of that array. *)
Theorem visible_is_prefix_snapshot
    (n : Z) (l : list Alert) (s : Sys) (ops : list Op) :
  (0 ≤ n)%Z → reachable s →
  recentAlerts n l = visible_spec n l ∧
  Z.of_nat (length (recentAlerts n l)) = Z.min n (Z.of_nat (length l)) ∧
  (∀ m, recentAlerts m l `prefix_of` l) ∧
  visible s = recentAlerts maxAlerts (store s) ∧
  visibleAlerts s ≠ alerts s ∧
  deref (heap (run ops s)) (visibleAlerts s) = visible s.
Proof.
  intros Hn Hs. pose proof (reachable_Inv s Hs) as HI.
  assert (recentAlerts n l = visible_spec n l) as Heq.
  { unfold recentAlerts, visible_spec. rewrite js_slice_from_0.
    rewrite bool_decide_eq_false_2 by lia.
    destruct (decide (n ≤ Z.of_nat (length l))%Z).
    - f_equal. lia.
    - rewrite !take_ge; [done | lia | lia]. }
  split_and!.
  - done.
  - rewrite Heq. unfold visible_spec. rewrite length_take. lia.
  - intros m. apply js_slice_prefix.
  - apply HI.
  - pose proof (inv_copy s HI). lia.
  - apply deref_prefix; [by apply run_heap_prefix | apply HI].
Qed.

Lemma visible_is_prefix_snapshot_witness :
  let s := run [Add alertA; Add alertB; Add alertC; Add alertD] mounted in
  let later := [Add alertE; Dismiss (JNum 3); Wait 10000] in
  (0 ≤ 3)%Z ∧ reachable s ∧
  recentAlerts 3 (store s) = visible_spec 3 (store s) ∧
  deref (heap (run later s)) (visibleAlerts s) = visible s.
Proof.
  intros s later.
  assert (0 ≤ 3)%Z as Hn by lia.
  assert (reachable s) as Hs
    by (by exists [Add alertA; Add alertB; Add alertC; Add alertD]).
  split_and!; [exact Hn | exact Hs | ..];
    apply (visible_is_prefix_snapshot 3 (store s) s later Hn Hs).
Defined.

Example snapshot_example :
  let s := run [Add alertA; Add alertB; Add alertC; Add alertD] mounted in
  let s' := run [Add alertE; Dismiss (JNum 3); Wait 10000] s in
  visible s = [alertD; alertC; alertB] ∧
  visible s' = [alertE; alertD; alertA] ∧
  deref (heap s') (visibleAlerts s) = [alertD; alertC; alertB].
Proof. by vm_compute. Qed.

(** ** Adding *)

(** C8. [addAlert] takes any alert, also one without [message] or [type],
    and puts it, as it is, at the head of the store (and so of the
    window); the call is total, it returns a state and cannot fail. *)
Theorem add_always_accepted (alert : Alert) (prev : list Alert) (s : Sys) :
  reachable s →
  addAlert alert prev = alert :: take 4 prev ∧
  head (addAlert alert prev) = Some alert ∧
  head (store (step s (Add alert))) = Some alert ∧
  head (visible (step s (Add alert))) = Some alert.
Proof.
  intros Hs. pose proof (reachable_Inv s Hs) as HI.
  pose proof (addAlert_cons alert prev) as Hcons.
  assert (head (store (step s (Add alert))) = Some alert) as Hhead.
  { destruct (step_Add_spec alert s HI) as [-> _]. by rewrite addAlert_cons. }
  split_and!; [done | by rewrite Hcons | done |].
  rewrite (inv_visible _ (step_Inv s (Add alert) HI)).
  by rewrite head_recentAlerts.
Qed.

Lemma add_always_accepted_witness :
  let s := run [Add alertA] mounted in
  reachable s ∧
  message malformed = JUndefined ∧ type malformed = JUndefined ∧
  head (store (step s (Add malformed))) = Some malformed ∧
  head (visible (step s (Add malformed))) = Some malformed.
Proof.
  intros s.
  assert (reachable s) as Hs by (by exists [Add alertA]).
  split_and!; [exact Hs | reflexivity | reflexivity | ..];
    apply (add_always_accepted malformed [] s Hs).
Defined.

Example scenario_E :
  let s := run [Add (sample 1 (JNum 1) "success" (JStr "wallet connected"))] mounted in
  sounds (log s) = [JStr "success"] ∧
  visible s = [sample 1 (JNum 1) "success" (JStr "wallet connected")].
Proof. by vm_compute. Qed.

(** ** Frame *)

(** C9. A mutation leaves the surviving entries as they were and in their
    order.  After an add the old entries that remain are a prefix of the
    old store: all of them below capacity, all but the last one at
    capacity.  After a dismiss what remains is a subsequence of the old
    store, and the entries whose id differs from the argument are the same
    sequence before and after. *)
Theorem mutations_preserve_survivors
    (alert : Alert) (i : JsVal) (prev : list Alert) :
  tail (addAlert alert prev) `prefix_of` prev ∧
  (length prev < 5 → tail (addAlert alert prev) = prev) ∧
  (length prev = 5 →
   ∃ oldest, prev = tail (addAlert alert prev) ++ [oldest]) ∧
  dismissAlert i prev `sublist_of` prev ∧
  filter (λ a, strict_eq (id a) i = false) (dismissAlert i prev) =
    filter (λ a, strict_eq (id a) i = false) prev.
Proof.
  rewrite addAlert_cons. simpl. split_and!.
  - apply prefix_take.
  - intros Hlt. apply take_ge. lia.
  - intros Hlen. destruct (last prev) as [oldest|] eqn:Hlast.
    + apply last_Some in Hlast as [kept ->]. exists oldest.
      rewrite length_app in Hlen. simpl in Hlen.
      by rewrite take_app_length' by lia.
    + apply last_None in Hlast. by subst.
  - apply dismissAlert_sublist.
  - unfold dismissAlert. rewrite list_filter_filter. apply list_filter_iff.
    intros a. unfold strict_neq. rewrite negb_true_iff. tauto.
Qed.

Lemma mutations_preserve_survivors_witness :
  let prev := [alertE; alertD; alertC; alertB; alertA] in
  let small := [alertB; alertA] in
  length small < 5 ∧ tail (addAlert alertC small) = small ∧
  length prev = 5 ∧
  ∃ oldest, prev = tail (addAlert alertF prev) ++ [oldest].
Proof.
  intros prev small.
  assert (length small < 5) as Hlt by (simpl; lia).
  assert (length prev = 5) as Hlen by reflexivity.
  split_and!; [exact Hlt | | exact Hlen |].
  - apply (mutations_preserve_survivors alertC (JNum 1) small), Hlt.
  - apply (mutations_preserve_survivors alertF (JNum 1) prev), Hlen.
Defined.

(** ** The last alert *)

(** C10. When a dismiss empties a store that was not empty, the window is
    empty too and no sound is played, although the head changed (from an
    alert to none). *)
Theorem no_sound_when_store_empties (s : Sys) (i : JsVal) :
  reachable s → store s ≠ [] → store (step s (Dismiss i)) = [] →
  visible (step s (Dismiss i)) = [] ∧
  head (store (step s (Dismiss i))) ≠ head (store s) ∧
  sounds (log (step s (Dismiss i))) = sounds (log s).
Proof.
  intros Hs Hne Hempty. pose proof (reachable_Inv s Hs) as HI.
  split_and!.
  - by rewrite (inv_visible _ (step_Inv s (Dismiss i) HI)), Hempty.
  - rewrite Hempty. by destruct (store s).
  - rewrite (step_sounds s _ HI), Hempty. apply (right_id_L [] (++)).
Qed.

Lemma no_sound_when_store_empties_witness :
  let s := run [Add alertA] mounted in
  reachable s ∧ store s ≠ [] ∧ store (step s (Dismiss (JNum 1))) = [] ∧
  visible (step s (Dismiss (JNum 1))) = [] ∧
  head (store (step s (Dismiss (JNum 1)))) ≠ head (store s) ∧
  sounds (log (step s (Dismiss (JNum 1)))) = sounds (log s).
Proof.
  intros s.
  assert (reachable s) as Hs by (by exists [Add alertA]).
  assert (store s ≠ []) as Hne by (vm_compute; discriminate).
  assert (store (step s (Dismiss (JNum 1))) = []) as Hempty
    by (vm_compute; reflexivity).
  split_and!; [exact Hs | exact Hne | exact Hempty | ..];
    apply (no_sound_when_store_empties s (JNum 1) Hs Hne Hempty).
Defined.

(** ** The expiry timer *)

Lemma step_rearms (s : Sys) (op : Op) (t' : Timer) :
  Inv s → is_wait op = false → t' ∈ timers (step s op) →
  deadline t' = (now s + ttlMs)%N ∧ next_handle s ≤ handle t'.
Proof.
  intros HI Hop Hin. pose proof (inv_settled s HI) as Hs.
  destruct op as [alert|i| |d]; [| | |done].
  - rewrite step_Add_eq in Hin by done. unfold after_setAlerts in Hin.
    simpl in Hin. destruct (recentAlerts _ _); [by apply elem_of_nil in Hin|].
    apply list_elem_of_singleton in Hin as ->. simpl.
    split; [done|]. destruct (visible s); lia.
  - rewrite step_Dismiss_eq in Hin by done. unfold after_setAlerts in Hin.
    simpl in Hin. destruct (recentAlerts _ _); [by apply elem_of_nil in Hin|].
    apply list_elem_of_singleton in Hin as ->. simpl.
    split; [done|]. destruct (visible _); lia.
  - simpl in Hin. rewrite settle_rerender in Hin by done.
    unfold after_rerender in Hin.
    destruct (visible s); simpl in Hin; [by apply elem_of_nil in Hin|].
    by apply list_elem_of_singleton in Hin as ->.
Qed.

Lemma Inv_handles (s : Sys) (t : Timer) :
  Inv s → t ∈ timers s → handle t < next_handle s.
Proof.
  intros [_ _ _ _ Ht] Hin. unfold timer_ok in Ht. destruct (visible s).
  - destruct Ht as [Ht _]. rewrite Ht in Hin. by apply elem_of_nil in Hin.
  - destruct Ht as (h & dl & Ht & _ & Hh & _). rewrite Ht in Hin.
    by apply list_elem_of_singleton in Hin as ->.
Qed.

Lemma step_now (s : Sys) (op : Op) :
  Inv s → is_wait op = false → now (step s op) = now s.
Proof.
  intros HI Hop. pose proof (inv_settled s HI) as Hs.
  destruct op as [alert|i| |d]; [| | |done].
  - by rewrite step_Add_eq by done.
  - by rewrite step_Dismiss_eq by done.
  - simpl. rewrite settle_rerender by done. unfold after_rerender.
    by destruct (visible s).
Qed.

(** The input of C5: the start of [Dashboard] itself.  The first alert is
    added 2500 ms after the mount and [statsVisible] is set 800 ms later;
    that render re-arms the timeout, so 10000 ms after the add, the last
    mutation, no dismissal has happened: it happens 800 ms later. *)
Lemma rerender_postpones_expiry :
  let s1 := run [Wait 2500; Add alertA] mounted in
  let s2 := run [Wait 800; Rerender; Wait 9200] s1 in
  visible s1 = [alertA] ∧ now s1 = 2500%N ∧
  now s2 = (now s1 + ttlMs)%N ∧
  store s2 = [alertA] ∧ dismissals (log s2) = [] ∧
  deadline <$> timers s2 = [13300%N] ∧
  dismissals (log (run [Wait 800] s2)) = [JNum 1] ∧
  dismissals (log (run [Wait 10000] s1)) = [JNum 1].
Proof. by vm_compute. Qed.

(** C5, amended.  Between events, a window that is not empty has exactly
    one timeout pending and an empty window has none.  Every mutation and
    also every other render of [Dashboard] (which hands the component a new
    [onDismiss]) cancels the pending timeout and, if the window is then not
    empty, arms a new one due [ttlMs] = 10000 ms later.  Until it is due
    the passing of time changes nothing; when it is due it calls
    [onDismiss] with the id of the last entry of the window of that
    moment, which removes the entries with that id from the store.  So
    after a mutation or a render at time [now], with a window that is not
    empty, waiting less than 10000 ms changes nothing and waiting 10000 ms
    dismisses the oldest visible alert at [now + 10000]. *)
Theorem expiry_timer (s : Sys) :
  reachable s →
  match last (visible s) with
  | None => timers s = []
  | Some oldest =>
      ∃ t, timers s = [t] ∧ (now s ≤ deadline t ≤ now s + ttlMs)%N ∧
           (∀ d, (now s + d < deadline t)%N →
                 wait d s = set_now (now s + d)%N s) ∧
           (∀ d, (deadline t ≤ now s + d)%N →
                 now (wait d s) = deadline t ∧
                 dismissals (log (wait d s)) = dismissals (log s) ++ [id oldest] ∧
                 store (wait d s) = dismissAlert (id oldest) (store s))
  end ∧
  (∀ op t', is_wait op = false → t' ∈ timers (step s op) →
            deadline t' = (now s + ttlMs)%N ∧ t' ∉ timers s) ∧
  (∀ op oldest,
     is_wait op = false → last (visible (step s op)) = Some oldest →
     (∀ d, (d < ttlMs)%N →
           wait d (step s op) = set_now (now s + d)%N (step s op)) ∧
     now (wait ttlMs (step s op)) = (now s + ttlMs)%N ∧
     dismissals (log (wait ttlMs (step s op))) =
       dismissals (log (step s op)) ++ [id oldest] ∧
     store (wait ttlMs (step s op)) = dismissAlert (id oldest) (store (step s op))).
Proof.
  intros Hs. pose proof (reachable_Inv s Hs) as HI. split_and!.
  - pose proof (Inv_timers s HI) as Ht.
    destruct (last (visible s)) as [oldest|] eqn:Hlast; [|done].
    destruct Ht as (t & Ht & Hva & _ & Hdl). exists t.
    split; [done|]. split; [exact Hdl|]. split.
    + intros d Hd. by apply (wait_early d s t).
    + intros d Hd.
      destruct (wait_due_spec d s t oldest HI Ht Hlast Hd) as (Hnow & Hst & Hlog).
      split_and!; [done | | done].
      rewrite Hlog, dismissals_app. simpl. by rewrite dismissals_Sound.
  - intros op t' Hop Hin.
    destruct (step_rearms s op t' HI Hop Hin) as [Hdl Hh]. split; [done|].
    intros Hold. apply (Inv_handles s t' HI) in Hold. lia.
  - intros op oldest Hop Hlast.
    pose proof (step_Inv s op HI) as HI'.
    pose proof (Inv_timers _ HI') as Ht. rewrite Hlast in Ht.
    destruct Ht as (t & Ht & _ & _ & _).
    assert (deadline t = (now s + ttlMs)%N) as Hdl.
    { apply (step_rearms s op t HI Hop). rewrite Ht. by left. }
    pose proof (step_now s op HI Hop) as Hnow.
    split.
    + intros d Hd. rewrite <- Hnow. apply (wait_early d _ t); [done | lia].
    + destruct (wait_due_spec ttlMs _ t oldest HI' Ht Hlast) as (Hn & Hst & Hlog);
        [lia|].
      split_and!; [congruence | | done].
      rewrite Hlog, dismissals_app. simpl. by rewrite dismissals_Sound.
Qed.

Lemma expiry_timer_witness :
  let s := run [Wait 2500; Add alertA; Wait 800; Rerender] mounted in
  reachable s ∧
  match last (visible s) with
  | None => timers s = []
  | Some oldest =>
      ∃ t, timers s = [t] ∧ (now s ≤ deadline t ≤ now s + ttlMs)%N ∧
           (∀ d, (now s + d < deadline t)%N →
                 wait d s = set_now (now s + d)%N s) ∧
           (∀ d, (deadline t ≤ now s + d)%N →
                 now (wait d s) = deadline t ∧
                 dismissals (log (wait d s)) = dismissals (log s) ++ [id oldest] ∧
                 store (wait d s) = dismissAlert (id oldest) (store s))
  end.
Proof.
  intros s.
  assert (reachable s) as Hs
    by (by exists [Wait 2500; Add alertA; Wait 800; Rerender]).
  clearbody s. split; [exact Hs|].
  exact (proj1 (expiry_timer s Hs)).
Defined.

Example scenario_C :
  let s := run [Add alertA; Add alertB; Add alertC; Add alertD] mounted in
  let s' := run [Wait 10000] s in
  visible s = [alertD; alertC; alertB] ∧
  dismissals (log s') = [JNum 2] ∧
  store s' = [alertD; alertC; alertA] ∧
  visible s' = [alertD; alertC; alertA] ∧
  now s' = 10000%N.
Proof. by vm_compute. Qed.

(** * Further properties of the alert queue *)

(** ** Strict equality and ids *)

Lemma strict_eq_true (x y : JsVal) : strict_eq x y = true → x = y.
Proof.
  destruct x, y; simpl; try done; intros Heq;
    apply bool_decide_eq_true in Heq; by subst.
Qed.

Lemma strict_eq_neq (x y : JsVal) : x ≠ y → strict_eq x y = false.
Proof.
  intros Hne. destruct (strict_eq x y) eqn:Heq; [|done].
  by apply strict_eq_true in Heq.
Qed.

Lemma strict_eq_NaN_l (i : JsVal) : strict_eq JNaN i = false.
Proof. done. Qed.

Lemma distinct_ids_cons (a : Alert) (l : list Alert) :
  distinct_ids (a :: l) ↔
  strict_eq (id a) (id a) = true ∧ (id a ∉ id <$> l) ∧ distinct_ids l.
Proof.
  unfold distinct_ids. rewrite fmap_cons, NoDup_cons. split.
  - intros [[Hnin Hnd] Hself]. split_and!; [| done | done |].
    + apply Hself. by left.
    + intros b Hb. apply Hself. by right.
  - intros (Ha & Hnin & Hnd & Hself). split; [done|].
    intros b Hb. apply elem_of_cons in Hb as [->|Hb]; [done | by apply Hself].
Qed.

Lemma distinct_ids_app_r (l1 l2 : list Alert) :
  distinct_ids (l1 ++ l2) → distinct_ids l2.
Proof.
  induction l1 as [|a l1 IH]; [done|]. simpl. intros Hd.
  apply distinct_ids_cons in Hd as (_ & _ & Hd). by apply IH.
Qed.

(** With distinct ids a dismiss takes out the one entry that has the id. *)
Lemma dismissAlert_middle (l1 l2 : list Alert) (a : Alert) :
  distinct_ids (l1 ++ a :: l2) →
  dismissAlert (id a) (l1 ++ a :: l2) = l1 ++ l2.
Proof.
  intros Hd. unfold dismissAlert. rewrite filter_app. f_equal.
  - apply (dismissAlert_absent (id a)). intros b Hb. apply strict_eq_neq.
    intros Heq. clear -Hd Hb Heq. induction l1 as [|c l1 IH].
    { by apply elem_of_nil in Hb. }
    simpl in Hd. apply distinct_ids_cons in Hd as (_ & Hnin & Hd).
    apply elem_of_cons in Hb as [->|Hb]; [|by apply IH].
    apply Hnin. rewrite fmap_app, fmap_cons, Heq.
    apply elem_of_app. right. by left.
  - apply distinct_ids_app_r, distinct_ids_cons in Hd as (Hself & Hnin & _).
    rewrite filter_cons_False by (unfold strict_neq; rewrite Hself; simpl; congruence).
    apply (dismissAlert_absent (id a)). intros b Hb. apply strict_eq_neq.
    intros Heq. apply Hnin. rewrite <- Heq. by apply list_elem_of_fmap_2.
Qed.

Lemma distinct_ids_delete_middle (l1 l2 : list Alert) (a : Alert) :
  distinct_ids (l1 ++ a :: l2) → distinct_ids (l1 ++ l2).
Proof.
  unfold distinct_ids. rewrite !fmap_app, fmap_cons. intros [Hnd Hself]. split.
  - apply NoDup_app in Hnd as (H1 & H12 & H2). apply NoDup_cons in H2 as [_ H2].
    apply NoDup_app. split_and!; [done | | done].
    intros x Hx Hx2. apply (H12 x Hx). by right.
  - intros b Hb. apply Hself. apply elem_of_app.
    apply elem_of_app in Hb as [Hb|Hb]; [by left | right; by right].
Qed.

(** ** Add and dismiss, one after the other *)

Lemma add_dismiss_sets_back (alert : Alert) (prev : list Alert) :
  strict_eq (id alert) (id alert) = true →
  (∀ a, a ∈ prev → strict_eq (id a) (id alert) = false) →
  dismissAlert (id alert) (addAlert alert prev) = take 4 prev.
Proof.
  intros Hself Hfresh. rewrite addAlert_cons. unfold dismissAlert.
  rewrite filter_cons_False by (unfold strict_neq; rewrite Hself; simpl; congruence).
  apply (dismissAlert_absent (id alert)). intros a Ha. apply Hfresh.
  by apply (subseteq_take 4 prev).
Qed.

Lemma add_dismiss_NaN_stays (alert : Alert) (prev : list Alert) :
  strict_eq (id alert) (id alert) = false →
  (∀ a, a ∈ prev → strict_eq (id a) (id alert) = false) →
  dismissAlert (id alert) (addAlert alert prev) = addAlert alert prev.
Proof.
  intros Hself Hfresh. rewrite addAlert_cons. apply dismissAlert_absent.
  intros a Ha. apply elem_of_cons in Ha as [->|Ha]; [done|].
  apply Hfresh. by apply (subseteq_take 4 prev).
Qed.

(** X1. A new alert object is added to a store that is not empty, with
    an id that no entry of the store has, and then its id is dismissed.
    When the id equals itself (it is not [NaN]), the store is the first
    four entries of the store of before: the store of before when that was
    below capacity, and then the window is back too; at capacity the entry
    that the add dropped stays lost.  Two sounds have been played: that of
    the alert and then that of the old head once more.  When the id does
    not equal itself (it is [NaN]), the dismissal removes nothing: the
    alert stays at the head and only its own sound has been played. *)
Theorem add_then_dismiss_round_trip
    (alert h : Alert) (rest : list Alert) (s : Sys) :
  reachable s → store s = h :: rest →
  (∀ a, a ∈ store s → strict_eq (id a) (id alert) = false) →
  ref alert ≠ ref h →
  (strict_eq (id alert) (id alert) = true →
   store (run [Add alert; Dismiss (id alert)] s) = take 4 (store s) ∧
   (length (store s) < 5 →
    store (run [Add alert; Dismiss (id alert)] s) = store s ∧
    visible (run [Add alert; Dismiss (id alert)] s) = visible s) ∧
   sounds (log (run [Add alert; Dismiss (id alert)] s)) =
     sounds (log s) ++ [type alert; type h]) ∧
  (strict_eq (id alert) (id alert) = false →
   store (run [Add alert; Dismiss (id alert)] s) = alert :: take 4 (store s) ∧
   sounds (log (run [Add alert; Dismiss (id alert)] s)) =
     sounds (log s) ++ [type alert]).
Proof.
  intros Hs Hst Hfresh Href. pose proof (reachable_Inv s Hs) as HI.
  pose proof (step_Inv s (Add alert) HI) as HI1.
  pose proof (step_Inv _ (Dismiss (id alert)) HI1) as HI2.
  change (run [Add alert; Dismiss (id alert)] s)
    with (step (step s (Add alert)) (Dismiss (id alert))).
  destruct (step_Add_spec alert s HI) as [Hst1 _].
  destruct (step_Dismiss_spec (id alert) _ HI1) as [Hst2 _].
  assert (sounds (log (step s (Add alert))) = sounds (log s) ++ [type alert])
    as Hsound1.
  { rewrite (step_sounds s _ HI), Hst1, addAlert_cons, Hst.
    unfold new_head_sound. simpl.
    by rewrite bool_decide_eq_false_2 by done. }
  split.
  - intros Hself.
    assert (store (step (step s (Add alert)) (Dismiss (id alert))) = take 4 (store s))
      as Hback.
    { rewrite Hst2, Hst1. by apply add_dismiss_sets_back. }
    split_and!.
    + done.
    + intros Hlen. rewrite (inv_visible _ HI2), (inv_visible _ HI), Hback.
      by rewrite take_ge by lia.
    + rewrite (step_sounds _ _ HI1), Hsound1, Hback, Hst1.
      rewrite addAlert_cons, Hst. unfold new_head_sound. simpl.
      rewrite bool_decide_eq_false_2 by (by intros ?). simpl.
      by rewrite <- (assoc_L (++)).
  - intros Hself.
    assert (store (step (step s (Add alert)) (Dismiss (id alert)))
            = store (step s (Add alert))) as Hkept.
    { rewrite Hst2, Hst1. by apply add_dismiss_NaN_stays. }
    split.
    + by rewrite Hkept, Hst1, addAlert_cons.
    + rewrite (step_sounds _ _ HI1), Hsound1, Hkept.
      by rewrite new_head_sound_same, (right_id_L [] (++)).
Qed.

Lemma add_then_dismiss_round_trip_witness :
  let s := run [Add alertA; Add alertB] mounted in
  let stuck := sample 9 JNaN "error" (JStr "no id") in
  reachable s ∧ store s = alertB :: [alertA] ∧
  store (run [Add alertC; Dismiss (id alertC)] s) = take 4 (store s) ∧
  sounds (log (run [Add alertC; Dismiss (id alertC)] s)) =
    sounds (log s) ++ [type alertC; type alertB] ∧
  store (run [Add stuck; Dismiss (id stuck)] s) = stuck :: take 4 (store s) ∧
  sounds (log (run [Add stuck; Dismiss (id stuck)] s)) =
    sounds (log s) ++ [type stuck].
Proof.
  intros s stuck.
  assert (reachable s) as Hs by (by exists [Add alertA; Add alertB]).
  assert (store s = alertB :: [alertA]) as Hst by (vm_compute; reflexivity).
  clearbody s.
  assert (∀ a, a ∈ store s → strict_eq (id a) (id alertC) = false) as Hfresh.
  { rewrite Hst. intros a Ha.
    apply elem_of_cons in Ha as [->|Ha]; [reflexivity|].
    apply elem_of_cons in Ha as [->|Ha]; [reflexivity|].
    by apply elem_of_nil in Ha. }
  assert (∀ a, a ∈ store s → strict_eq (id a) (id stuck) = false) as Hfresh'.
  { rewrite Hst. intros a Ha.
    apply elem_of_cons in Ha as [->|Ha]; [reflexivity|].
    apply elem_of_cons in Ha as [->|Ha]; [reflexivity|].
    by apply elem_of_nil in Ha. }
  assert (ref alertC ≠ ref alertB) as Href by (vm_compute; lia).
  assert (ref stuck ≠ ref alertB) as Href' by (vm_compute; lia).
  destruct (add_then_dismiss_round_trip alertC alertB [alertA] s Hs Hst
              Hfresh Href) as [Hback _].
  destruct (add_then_dismiss_round_trip stuck alertB [alertA] s Hs Hst
              Hfresh' Href') as [_ Hstays].
  destruct (Hback eq_refl) as (Hst1 & _ & Hso1).
  destruct (Hstays eq_refl) as (Hst2 & Hso2).
  split_and!; [exact Hs | exact Hst | exact Hst1 | exact Hso1 | exact Hst2 | exact Hso2].
Defined.

(** ** An id that equals nothing *)

Lemma step_store_cases (s : Sys) (op : Op) :
  Inv s → is_add op = false →
  store (step s op) = store s ∨ ∃ i, store (step s op) = dismissAlert i (store s).
Proof.
  intros HI Hop. destruct op as [alert|i| |d]; [done| | |].
  - right. exists i. apply (step_Dismiss_spec i s HI).
  - left. apply (step_Rerender_spec s HI).
  - change (step s (Wait d)) with (wait d s).
    pose proof (Inv_timers s HI) as Ht.
    destruct (last (visible s)) as [oldest|] eqn:Hlast.
    + destruct Ht as (t & Ht & Hva & _ & Hdl).
      destruct (decide (deadline t ≤ now s + d)%N) as [Hdue|Hearly].
      * right. exists (id oldest). by apply (wait_due_spec d s t oldest).
      * left. by rewrite (wait_early d s t) by (done || lia).
    + left. by rewrite wait_no_timer by done.
Qed.

(** X2. An alert whose id is [NaN] outlives every dismissal: whatever id
    a close button or the timeout passes, [alert.id !== id] holds for it.
    Only later adds can push it out of the store. *)
Theorem nan_id_is_never_dismissed (s : Sys) (alert : Alert) (ops : list Op) :
  reachable s → alert ∈ store s → id alert = JNaN →
  Forall (λ op, is_add op = false) ops →
  alert ∈ store (run ops s).
Proof.
  intros Hs Hin Hnan Hops. pose proof (reachable_Inv s Hs) as HI.
  induction ops as [|op ops IH] using rev_ind; [done|].
  apply Forall_app in Hops as [Hops Hop]. rewrite Forall_singleton in Hop.
  specialize (IH Hops). rewrite run_snoc.
  destruct (step_store_cases (run ops s) op (run_Inv ops s HI) Hop) as [->|[i ->]];
    [done|].
  apply dismissAlert_elem_of. split; [done|]. by rewrite Hnan.
Qed.

Lemma nan_id_is_never_dismissed_witness :
  let stuck := sample 9 JNaN "error" (JStr "no id") in
  let s := run [Add alertA; Add stuck] mounted in
  let ops := [Dismiss JNaN; Wait 10000; Wait 10000; Rerender; Wait 10000] in
  reachable s ∧ stuck ∈ store s ∧
  Forall (λ op, is_add op = false) ops ∧
  stuck ∈ store (run ops s).
Proof.
  intros stuck s ops.
  assert (reachable s) as Hs by (by exists [Add alertA; Add stuck]).
  assert (stuck ∈ store s) as Hin.
  { replace (store s) with [stuck; alertA] by (vm_compute; reflexivity).
    apply elem_of_cons. left. reflexivity. }
  clearbody s.
  assert (Forall (λ op, is_add op = false) ops) as Hops
    by (repeat constructor).
  split_and!; [exact Hs | exact Hin | exact Hops |].
  exact (nan_id_is_never_dismissed s stuck ops Hs Hin eq_refl Hops).
Defined.

(** ** Expiry, one alert after the other *)

Lemma expiry_order_step (l : list Alert) :
  l ≠ [] → distinct_ids l →
  ∃ oldest l',
    last (take 3 l) = Some oldest ∧
    dismissAlert (id oldest) l = l' ∧
    S (length l') = length l ∧
    distinct_ids l' ∧
    expiry_order l = oldest :: expiry_order l'.
Proof.
  intros Hne Hd. destruct l as [|a0 [|a1 [|a2 rest]]]; [done| | |].
  - exists a0, []. split_and!; try done.
    + apply (dismissAlert_middle [] [] a0 Hd).
    + apply (distinct_ids_delete_middle [] [] a0 Hd).
  - exists a1, [a0]. split_and!; try done.
    + apply (dismissAlert_middle [a0] [] a1 Hd).
    + apply (distinct_ids_delete_middle [a0] [] a1 Hd).
  - exists a2, (a0 :: a1 :: rest). split_and!; try done.
    + apply (dismissAlert_middle [a0; a1] rest a2 Hd).
    + apply (distinct_ids_delete_middle [a0; a1] rest a2 Hd).
Qed.

(** ** The close button *)

Lemma render_lookup (clock : string) (l : list Alert) (k : nat) (a : Alert) :
  l !! k = Some a →
  ∃ card, render clock l !! k = Some card ∧ close_id card = id a ∧
          key card = id a ∧ isNew card = bool_decide (k = 0) ∧
          card_style card = getAlertStyle (type a).
Proof.
  intros Hk. unfold render. rewrite list_lookup_imap, Hk. simpl.
  eexists. by split_and!.
Qed.

Lemma click_close_distinct (clock : string) (k : nat) (a : Alert) (s : Sys) :
  Inv s → distinct_ids (store s) → visible s !! k = Some a →
  click_close clock k s = step s (Dismiss (id a)) ∧
  dismissAlert (id a) (store s) = delete k (store s).
Proof.
  intros HI Hd Hk.
  pose proof (inv_visible s HI) as Hvis. rewrite recentAlerts_take in Hvis.
  destruct (render_lookup clock _ k a Hk) as (card & Hcard & Hclose & _).
  unfold click_close. rewrite Hcard, Hclose. split; [done|].
  assert (store s !! k = Some a) as Hsk.
  { rewrite Hvis in Hk. by apply lookup_take_Some in Hk as [? _]. }
  rewrite delete_take_drop. rewrite <- (take_drop_middle _ _ _ Hsk) at 1.
  apply dismissAlert_middle. by rewrite (take_drop_middle _ _ _ Hsk).
Qed.

(** X4. With ids that tell the entries apart, the close button of the
    [k]-th card removes the [k]-th entry of the store and nothing else;
    the window is then the first three of what is left, so a hidden alert
    moves up; the callback was called once, with that alert's id.  The
    cards are as many as the window has entries, three at most, and only
    the first one is marked as new. *)
Theorem close_button_removes_its_alert
    (clock : string) (k : nat) (a : Alert) (s : Sys) :
  reachable s → distinct_ids (store s) → visible s !! k = Some a →
  store (click_close clock k s) = delete k (store s) ∧
  visible (click_close clock k s) = take 3 (delete k (store s)) ∧
  (a ∉ store (click_close clock k s)) ∧
  dismissals (log (click_close clock k s)) = dismissals (log s) ++ [id a] ∧
  length (render clock (visible s)) = (length (store s) `min` 3) ∧
  (∀ j card, render clock (visible s) !! j = Some card →
             (isNew card = true ↔ j = 0)).
Proof.
  intros Hs Hd Hk. pose proof (reachable_Inv s Hs) as HI.
  pose proof (inv_visible s HI) as Hvis. rewrite recentAlerts_take in Hvis.
  destruct (render_lookup clock _ k a Hk) as (card & Hcard & Hclose & _).
  unfold click_close. rewrite Hcard, Hclose.
  destruct (step_Dismiss_spec (id a) s HI) as [Hst Hlog].
  assert (store s !! k = Some a) as Hsk.
  { rewrite Hvis in Hk. by apply lookup_take_Some in Hk as [? _]. }
  assert (dismissAlert (id a) (store s) = delete k (store s)) as Hdel.
  { rewrite delete_take_drop. rewrite <- (take_drop_middle _ _ _ Hsk) at 1.
    apply dismissAlert_middle. by rewrite (take_drop_middle _ _ _ Hsk). }
  split_and!.
  - by rewrite Hst.
  - rewrite (inv_visible _ (step_Inv s _ HI)), recentAlerts_take, Hst.
    by rewrite Hdel.
  - rewrite Hst. intros Hin. apply dismissAlert_elem_of in Hin as [Hin Hneq].
    destruct Hd as [_ Hself]. by rewrite (Hself a Hin) in Hneq.
  - rewrite Hlog, dismissals_app. simpl. by rewrite dismissals_Sound.
  - unfold render. rewrite length_imap, Hvis, length_take. lia.
  - intros j card' Hj. unfold render in Hj.
    rewrite list_lookup_imap in Hj.
    destruct (visible s !! j) as [b|]; [|done]. simpl in Hj.
    injection Hj as <-. simpl. apply bool_decide_eq_true.
Qed.

Lemma close_button_removes_its_alert_witness :
  let s := run [Add alertA; Add alertB; Add alertC; Add alertD] mounted in
  reachable s ∧ distinct_ids (store s) ∧ visible s !! 1 = Some alertC ∧
  store (click_close "12:00:00" 1 s) = delete 1 (store s) ∧
  visible (click_close "12:00:00" 1 s) = take 3 (delete 1 (store s)).
Proof.
  intros s.
  assert (reachable s) as Hs
    by (by exists [Add alertA; Add alertB; Add alertC; Add alertD]).
  assert (store s = [alertD; alertC; alertB; alertA]) as Hst
    by (vm_compute; reflexivity).
  assert (visible s !! 1 = Some alertC) as Hk by (vm_compute; reflexivity).
  clearbody s.
  assert (distinct_ids (store s)) as Hd.
  { rewrite Hst. split.
    - apply (bool_decide_eq_true_1 (NoDup _)). vm_compute. reflexivity.
    - intros a Ha. repeat (apply elem_of_cons in Ha as [->|Ha]; [reflexivity|]).
      by apply elem_of_nil in Ha. }
  split_and!; [exact Hs | exact Hd | exact Hk | ..];
    apply (close_button_removes_its_alert "12:00:00" 1 alertC s Hs Hd Hk).
Defined.

Example close_button_example :
  let s := run [Add alertA; Add alertB; Add alertC; Add alertD] mounted in
  visible s = [alertD; alertC; alertB] ∧
  visible (click_close "12:00:00" 1 s) = [alertD; alertB; alertA].
Proof. by vm_compute. Qed.

(** ** Styles *)

(** X5. A type that is none of [buy], [sell], [error], [warning] and
    [success] (a missing type among them) is drawn in the style of [info].
    For every type the text colour is a [text-] class and the progress bar
    gets the [bg-] class of the same colour: the [replace] always finds its
    pattern. *)
Theorem alert_style_fallback (ty : JsVal) :
  (ty ∉ JStr <$> [ALERT_TYPES.BUY; ALERT_TYPES.SELL; ALERT_TYPES.ERROR;
                  ALERT_TYPES.WARNING; ALERT_TYPES.SUCCESS] →
   getAlertStyle ty = getAlertStyle (JStr ALERT_TYPES.INFO)) ∧
  ∃ colour, textColor (getAlertStyle ty) = "text-" +:+ colour ∧
            progressClass ty = "bg-" +:+ colour.
Proof.
  split.
  - intros Hnot. simpl in Hnot.
    repeat (apply not_elem_of_cons in Hnot as [? Hnot]).
    unfold getAlertStyle at 1. by rewrite !strict_eq_neq by done.
  - unfold progressClass, getAlertStyle.
    repeat (destruct (strict_eq ty _); [eexists; split; reflexivity|]).
    eexists; split; reflexivity.
Qed.

Lemma alert_style_fallback_witness :
  (JUndefined ∉ JStr <$> [ALERT_TYPES.BUY; ALERT_TYPES.SELL; ALERT_TYPES.ERROR;
                          ALERT_TYPES.WARNING; ALERT_TYPES.SUCCESS]) ∧
  getAlertStyle (type malformed) = getAlertStyle (JStr ALERT_TYPES.INFO).
Proof.
  assert (JUndefined ∉ JStr <$> [ALERT_TYPES.BUY; ALERT_TYPES.SELL;
            ALERT_TYPES.ERROR; ALERT_TYPES.WARNING; ALERT_TYPES.SUCCESS]) as Hnot.
  { simpl. intros Hin.
    repeat (apply elem_of_cons in Hin as [Hin|Hin]; [discriminate|]).
    by apply elem_of_nil in Hin. }
  split; [exact Hnot|].
  exact (proj1 (alert_style_fallback JUndefined) Hnot).
Defined.

(** * Properties of the producers *)

(** ** The clock *)

Lemma mounted_Future : Future mounted.
Proof. intros t Ht. vm_compute in Ht. by apply elem_of_nil in Ht. Qed.

Lemma step_Future (s : Sys) (op : Op) :
  Inv s → Future s → Future (step s op).
Proof.
  intros HI HF t' Ht'. destruct (is_wait op) eqn:Hop.
  - destruct op as [| | |d]; try done.
    change (step s (Wait d)) with (wait d s) in *.
    pose proof (Inv_timers s HI) as Ht.
    destruct (last (visible s)) as [oldest|] eqn:Hlast.
    + destruct Ht as (t & Ht & Hva & _ & Hdl).
      destruct (decide (deadline t ≤ now s + d)%N) as [Hdue|Hearly].
      * assert (now s ≤ deadline t ≤ now s + d)%N as Hb by lia.
        pose proof (wait_due d s t oldest (inv_settled s HI) Ht Hva Hlast Hb) as Hw.
        rewrite Hw in Ht' |- *.
        unfold after_setAlerts in Ht' |- *. simpl in Ht' |- *.
        destruct (recentAlerts _ _); [by apply elem_of_nil in Ht'|].
        apply list_elem_of_singleton in Ht' as ->. simpl. unfold ttlMs. lia.
      * assert (now s + d < deadline t)%N as Hb by lia.
        rewrite (wait_early d s t Ht Hb) in Ht' |- *.
        change (timers (set_now _ s)) with (timers s) in Ht'.
        rewrite Ht in Ht'. apply list_elem_of_singleton in Ht' as ->.
        simpl. lia.
    + rewrite (wait_no_timer d s Ht) in Ht'.
      change (timers (set_now _ s)) with (timers s) in Ht'.
      rewrite Ht in Ht'. by apply elem_of_nil in Ht'.
  - destruct (step_rearms s op t' HI Hop Ht') as [-> _].
    rewrite (step_now s op HI Hop). unfold ttlMs. lia.
Qed.

Lemma wait_now (d : N) (s : Sys) :
  Inv s → Future s →
  (now s ≤ now (wait d s))%N ∧ ((0 < d)%N → (now s < now (wait d s))%N).
Proof.
  intros HI HF. pose proof (Inv_timers s HI) as Ht.
  destruct (last (visible s)) as [oldest|] eqn:Hlast.
  - destruct Ht as (t & Ht & Hva & _ & Hdl).
    assert (now s < deadline t)%N as Hlt by (apply HF; rewrite Ht; by left).
    destruct (decide (deadline t ≤ now s + d)%N) as [Hdue|Hearly].
    + destruct (wait_due_spec d s t oldest HI Ht Hlast Hdue) as (-> & _). lia.
    + rewrite (wait_early d s t) by (done || lia). simpl. lia.
  - rewrite wait_no_timer by done. simpl. lia.
Qed.

Lemma click_close_cases (clock : string) (k : nat) (s : Sys) :
  click_close clock k s = s ∨
  ∃ a, visible s !! k = Some a ∧ click_close clock k s = step s (Dismiss (id a)).
Proof.
  unfold click_close, render. rewrite list_lookup_imap.
  destruct (visible s !! k) as [a|]; [|by left]. right. by exists a.
Qed.

(** ** What an event leaves of the store *)

Lemma sublist_filter_mono {A : Type} (P : A → Prop) `{!∀ x, Decision (P x)}
    (l1 l2 : list A) :
  l1 `sublist_of` l2 → filter P l1 `sublist_of` filter P l2.
Proof.
  induction 1 as [|x l1 l2 _ IH|x l1 l2 _ IH]; [done| |].
  - rewrite !filter_cons. destruct (decide (P x)); [by constructor | done].
  - rewrite filter_cons. destruct (decide (P x)); [by constructor | done].
Qed.

Lemma step_store_sublist (s : Sys) (op : Op) :
  Inv s → is_add op = false → store (step s op) `sublist_of` store s.
Proof.
  intros HI Hop. destruct (step_store_cases s op HI Hop) as [->|[i ->]]; [done|].
  apply dismissAlert_sublist.
Qed.

Lemma click_close_store_sublist (clock : string) (k : nat) (s : Sys) :
  Inv s → store (click_close clock k s) `sublist_of` store s.
Proof.
  intros HI. destruct (click_close_cases clock k s) as [->|(a & _ & ->)]; [done|].
  by apply step_store_sublist.
Qed.

Lemma click_close_Inv (clock : string) (k : nat) (s : Sys) :
  Inv s → Future s →
  Inv (click_close clock k s) ∧ Future (click_close clock k s) ∧
  now (click_close clock k s) = now s.
Proof.
  intros HI HF. destruct (click_close_cases clock k s) as [->|(a & _ & ->)]; [done|].
  split_and!; [by apply step_Inv | by apply step_Future | by apply step_now].
Qed.

(** ** The invariant of [Dashboard] *)

Lemma dmounted_DInv (rt : Runtime) : DInv rt dmounted.
Proof.
  assert (store (sys dmounted) = []) as Hst by (vm_compute; reflexivity).
  split; rewrite ?Hst; try done.
  - apply mounted_Inv.
  - apply mounted_Future.
  - intros a Ha. by apply elem_of_nil in Ha.
  - intros a Ha. by apply elem_of_nil in Ha.
  - simpl. lia.
Qed.

(** An event that leaves a part of the store and no new alert. *)
Lemma DInv_shrink (rt : Runtime) (d d' : Dash) :
  DInv rt d →
  Inv (sys d') → Future (sys d') →
  store (sys d') `sublist_of` store (sys d) →
  (now (sys d) ≤ now (sys d'))%N →
  next_ref d ≤ next_ref d' →
  (isConnected d' = false → isConnected d = false) →
  (isLoading d' = false → isConnected d' = true) →
  DInv rt d'.
Proof.
  intros [HI HF Hstamp Hrefs Hnone Hone Hload] HI' HF' Hsub Hnow Href Hconn Hload'.
  split; try done.
  - intros a Ha. destruct (Hstamp a) as (t & Hid & Ht).
    { by eapply elem_of_sublist. }
    exists t. split; [done|]. unfold dateNow in *. lia.
  - intros a Ha. pose proof (Hrefs a (elem_of_sublist _ _ _ Ha Hsub)). lia.
  - intros Hc. specialize (Hnone (Hconn Hc)).
    pose proof (sublist_filter_mono is_wallet_alert _ _ Hsub) as Hf.
    rewrite Hnone in Hf. by apply sublist_nil_r in Hf.
  - pose proof (sublist_length _ _ (sublist_filter_mono is_wallet_alert _ _ Hsub)).
    lia.
Qed.

(** An event that calls [addAlert] with a new object. *)
Lemma DInv_add (rt : Runtime) (d d' : Dash) (a : Alert) :
  DInv rt d →
  sys d' = step (sys d) (Add a) →
  id a = JNum (Z.of_N (dateNow rt d)) → ref a = next_ref d →
  next_ref d' = S (next_ref d) →
  (is_wallet_alert a ∧ isConnected d = false ∧ isConnected d' = true) ∨
  (¬ is_wallet_alert a ∧ (isConnected d' = false → isConnected d = false)) →
  (isLoading d' = false → isConnected d' = true) →
  DInv rt d'.
Proof.
  intros [HI HF Hstamp Hrefs Hnone Hone Hload] Hsys Hid Href Hnext Hwallet Hload'.
  assert (store (sys d') = a :: take 4 (store (sys d))) as Hst.
  { rewrite Hsys. destruct (step_Add_spec a (sys d) HI) as [-> _].
    apply addAlert_cons. }
  assert (dateNow rt d' = dateNow rt d) as Hnow.
  { unfold dateNow. rewrite Hsys. by rewrite (step_now (sys d) (Add a) HI). }
  pose proof (sublist_take (store (sys d)) 4) as Hsub.
  pose proof (sublist_filter_mono is_wallet_alert _ _ Hsub) as Hfsub.
  split; rewrite ?Hst, ?Hnow.
  - rewrite Hsys. by apply step_Inv.
  - rewrite Hsys. by apply step_Future.
  - intros b Hb. apply elem_of_cons in Hb as [->|Hb].
    + eexists. split; [done|]. lia.
    + apply Hstamp. by eapply elem_of_sublist.
  - intros b Hb. apply elem_of_cons in Hb as [->|Hb]; [lia|].
    pose proof (Hrefs b (elem_of_sublist _ _ _ Hb Hsub)). lia.
  - intros Hc. destruct Hwallet as [(_ & _ & Hc')|[Hnw Hconn]]; [congruence|].
    rewrite filter_cons_False by done. specialize (Hnone (Hconn Hc)).
    rewrite Hnone in Hfsub. by apply sublist_nil_r in Hfsub.
  - pose proof (sublist_length _ _ Hfsub) as Hlen.
    destruct Hwallet as [(Hw & Hc & _)|[Hnw _]].
    + rewrite filter_cons_True by done. simpl.
      rewrite (Hnone Hc) in Hfsub. apply sublist_nil_r in Hfsub.
      by rewrite Hfsub.
    + rewrite filter_cons_False by done. lia.
  - done.
Qed.

Lemma selected_not_wallet (rt : Runtime) (token : Token) (price : JsNumber)
    (d : Dash) :
  ¬ is_wallet_alert (selectedAlert rt token price d).
Proof. unfold is_wallet_alert. simpl. intros [=]. Qed.

Lemma dstep_DInv (rt : Runtime) (d : Dash) (op : DOp) :
  DInv rt d → DInv rt (dstep rt d op).
Proof.
  intros HD. pose proof (dinv_sys rt d HD) as HI.
  pose proof (dinv_future rt d HD) as HF.
  pose proof (dinv_loaded rt d HD) as Hload.
  destruct op as [|token| |b| |k|ms]; simpl.
  - unfold handleConnectWallet. destruct (isConnected d) eqn:Hc; [done|].
    apply (DInv_add rt d _ (walletAlert rt d)); try done.
    left. by split_and!.
  - unfold handleTokenSelect. destruct (priceUSD token) as [price|]; simpl.
    + apply (DInv_add rt d _ (selectedAlert rt token price d)); try done.
      right. split; [apply selected_not_wallet | done].
    + apply (DInv_shrink rt d); simpl; try done.
      * unfold rerender_if. destruct (_ || _); [by apply step_Inv | done].
      * unfold rerender_if. destruct (_ || _); [by apply step_Future | done].
      * unfold rerender_if. destruct (_ || _); [|done].
        by apply step_store_sublist.
      * unfold rerender_if. destruct (_ || _); [|done].
        by rewrite (step_now _ Rerender HI).
  - apply (DInv_add rt d _ (initializedAlert rt d)); try done.
    right. split; [|done]. unfold is_wallet_alert. simpl. by intros [=].
  - apply (DInv_shrink rt d); simpl; try done; unfold rerender_if;
      destruct (negb _); try done.
    + by apply step_Inv.
    + by apply step_Future.
    + by apply step_store_sublist.
    + by rewrite (step_now _ Rerender HI).
  - apply (DInv_shrink rt d); simpl; try done; unfold rerender_if;
      destruct (negb _); try done.
    + by apply step_Inv.
    + by apply step_Future.
    + by apply step_store_sublist.
    + by rewrite (step_now _ Rerender HI).
  - destruct (click_close_Inv (toLocaleTimeString rt (dateNow rt d)) k (sys d) HI HF)
      as (HI' & HF' & Hnow).
    apply (DInv_shrink rt d); simpl; try done.
    + by apply click_close_store_sublist.
    + by rewrite Hnow.
  - apply (DInv_shrink rt d); simpl; try done.
    + apply (step_Inv _ (Wait ms) HI).
    + apply (step_Future _ (Wait ms) HI HF).
    + by apply (step_store_sublist _ (Wait ms) HI).
    + apply (wait_now ms (sys d) HI HF).
Qed.

Lemma drun_snoc (rt : Runtime) (ops : list DOp) (op : DOp) (d : Dash) :
  drun rt (ops ++ [op]) d = dstep rt (drun rt ops d) op.
Proof. unfold drun. by rewrite foldl_snoc. Qed.

Lemma drun_DInv (rt : Runtime) (ops : list DOp) (d : Dash) :
  DInv rt d → DInv rt (drun rt ops d).
Proof.
  intros HD. induction ops as [|op ops IH] using rev_ind; [done|].
  rewrite drun_snoc. by apply dstep_DInv.
Qed.

Lemma dreachable_DInv (rt : Runtime) (d : Dash) : dreachable rt d → DInv rt d.
Proof. intros [ops ->]. apply drun_DInv, dmounted_DInv. Qed.

(** ** What an event of [Dashboard] does to the store *)

Lemma dstep_store_cases (rt : Runtime) (d : Dash) (op : DOp) :
  DInv rt d →
  store (sys (dstep rt d op)) `sublist_of` store (sys d) ∨
  (produces op = true ∧
   ∃ a, store (sys (dstep rt d op)) = a :: take 4 (store (sys d)) ∧
        id a = JNum (Z.of_N (dateNow rt d)) ∧ ref a = next_ref d ∧
        (is_wallet_alert a → isConnected d = false)).
Proof.
  intros HD. pose proof (dinv_sys rt d HD) as HI.
  pose proof (dinv_future rt d HD) as HF.
  assert (∀ a, store (step (sys d) (Add a)) = a :: take 4 (store (sys d))) as Hadd.
  { intros a. destruct (step_Add_spec a (sys d) HI) as [-> _]. apply addAlert_cons. }
  destruct op as [|token| |b| |k|ms]; dash_simpl.
  - unfold handleConnectWallet. destruct (isConnected d) eqn:Hc; [by left|].
    right. split; [done|]. exists (walletAlert rt d). dash_simpl.
    by rewrite Hadd.
  - unfold handleTokenSelect. destruct (priceUSD token) as [price|]; dash_simpl.
    + right. split; [done|]. exists (selectedAlert rt token price d).
      rewrite Hadd. split_and!; try done.
    + left. unfold rerender_if. destruct (_ || _); [|done].
      by apply step_store_sublist.
  - right. split; [done|]. exists (initializedAlert rt d).
    unfold loadData_done. dash_simpl.
    rewrite Hadd. split_and!; try done.
  - left. unfold setGlitchActive, rerender_if. dash_simpl.
    destruct (negb _); [|done]. by apply step_store_sublist.
  - left. unfold setStatsVisible, rerender_if. dash_simpl.
    destruct (negb _); [|done]. by apply step_store_sublist.
  - left. by apply click_close_store_sublist.
  - left. by apply (step_store_sublist _ (Wait ms) HI).
Qed.

Lemma dstep_now (rt : Runtime) (d : Dash) (op : DOp) :
  DInv rt d →
  (dateNow rt d ≤ dateNow rt (dstep rt d op))%N ∧
  (∀ ms, op = Tick ms → (0 < ms)%N →
         (dateNow rt d < dateNow rt (dstep rt d op))%N).
Proof.
  intros HD. pose proof (dinv_sys rt d HD) as HI.
  pose proof (dinv_future rt d HD) as HF.
  assert (∀ a, now (step (sys d) (Add a)) = now (sys d)) as Hadd
    by (intros a; by apply step_now).
  assert (now (step (sys d) Rerender) = now (sys d)) as Hre
    by (by apply step_now).
  unfold dateNow.
  destruct op as [|token| |b| |k|ms]; dash_simpl.
  - unfold handleConnectWallet. destruct (isConnected d); dash_simpl;
      rewrite ?Hadd; split; (lia || done).
  - unfold handleTokenSelect, rerender_if.
    destruct (priceUSD token); dash_simpl; [|destruct (_ || _)];
      rewrite ?Hadd, ?Hre; split; (lia || done).
  - unfold loadData_done. dash_simpl. rewrite Hadd. split; (lia || done).
  - unfold setGlitchActive, rerender_if. dash_simpl. destruct (negb _);
      rewrite ?Hre; split; (lia || done).
  - unfold setStatsVisible, rerender_if. dash_simpl. destruct (negb _);
      rewrite ?Hre; split; (lia || done).
  - destruct (click_close_Inv (toLocaleTimeString rt (mountedAt rt + now (sys d))%N)
                k (sys d) HI HF) as (_ & _ & Hnow).
    unfold dateNow in Hnow |- *. rewrite Hnow. split; (lia || done).
  - destruct (wait_now ms (sys d) HI HF) as [Hle Hlt].
    change (step (sys d) (Wait ms)) with (wait ms (sys d)). split; [lia|].
    intros ms' [= <-] Hpos. specialize (Hlt Hpos). lia.
Qed.

(** ** The wallet alert *)

Lemma dstep_connected (rt : Runtime) (d : Dash) (op : DOp) :
  isConnected d = true → isConnected (dstep rt d op) = true.
Proof.
  intros Hc. destruct op as [|token| |b| |k|ms]; dash_simpl; try done.
  - unfold handleConnectWallet. by rewrite Hc.
  - unfold handleTokenSelect. by destruct (priceUSD token).
Qed.

(** X6. [handleConnectWallet] adds its alert once at most: the store never
    holds two WALLET CONNECTED alerts, and once [Dashboard] is connected,
    which it is at the latest when loading ends, it stays connected, a
    click on connect changes nothing, and no wallet alert is added any
    more. *)
Theorem wallet_alert_at_most_once (rt : Runtime) (d : Dash) (ops : list DOp) :
  dreachable rt d →
  length (filter is_wallet_alert (store (sys d))) ≤ 1 ∧
  (isLoading d = false → isConnected d = true) ∧
  (isConnected d = true →
   isConnected (drun rt ops d) = true ∧
   dstep rt (drun rt ops d) ClickConnect = drun rt ops d ∧
   length (filter is_wallet_alert (store (sys (drun rt ops d))))
     ≤ length (filter is_wallet_alert (store (sys d)))).
Proof.
  intros Hd. pose proof (dreachable_DInv rt d Hd) as HD.
  split_and!; [apply HD | apply HD |]. intros Hc.
  assert (isConnected (drun rt ops d) = true ∧
          length (filter is_wallet_alert (store (sys (drun rt ops d))))
            ≤ length (filter is_wallet_alert (store (sys d)))) as [Hc' Hlen].
  { induction ops as [|op ops [IHc IHlen]] using rev_ind; [done|].
    rewrite drun_snoc. split; [by apply dstep_connected|].
    pose proof (drun_DInv rt ops d HD) as HD'.
    destruct (dstep_store_cases rt _ op HD') as [Hsub|(_ & a & -> & _ & _ & Hw)].
    - pose proof (sublist_length _ _
                    (sublist_filter_mono is_wallet_alert _ _ Hsub)). lia.
    - rewrite filter_cons_False by (intros Ha; apply Hw in Ha; congruence).
      pose proof (sublist_length _ _
                    (sublist_filter_mono is_wallet_alert _ _
                       (sublist_take (store (sys (drun rt ops d))) 4))). lia. }
  split_and!; [done | | done].
  dash_simpl. unfold handleConnectWallet. by rewrite Hc'.
Qed.

Lemma wallet_alert_at_most_once_witness :
  let d := drun sampleRuntime [ClickConnect] dmounted in
  let ops := [Tick 2500; LoadDone; ClickConnect; Tick 20000; ClickConnect] in
  dreachable sampleRuntime d ∧ isConnected d = true ∧
  isConnected (drun sampleRuntime ops d) = true ∧
  dstep sampleRuntime (drun sampleRuntime ops d) ClickConnect
    = drun sampleRuntime ops d ∧
  length (filter is_wallet_alert (store (sys (drun sampleRuntime ops d))))
    ≤ length (filter is_wallet_alert (store (sys d))).
Proof.
  intros d ops.
  assert (dreachable sampleRuntime d) as Hd by (by exists [ClickConnect]).
  assert (isConnected d = true) as Hc by (vm_compute; reflexivity).
  clearbody d.
  split_and!; [exact Hd | exact Hc | ..];
    apply (wallet_alert_at_most_once sampleRuntime d ops Hd); exact Hc.
Defined.

(** ** Ids from [Date.now()] *)

Lemma distinct_ids_sublist (l1 l2 : list Alert) :
  l1 `sublist_of` l2 → distinct_ids l2 → distinct_ids l1.
Proof.
  intros Hsub [Hnd Hself]. split.
  - apply (sublist_NoDup _ (id <$> l2)); [done|]. by apply fmap_sublist.
  - intros a Ha. apply Hself. by apply (elem_of_sublist l1).
Qed.

Lemma dstep_calls_addAlert (rt : Runtime) (d : Dash) (op : DOp) :
  DInv rt d → calls_addAlert d op = true →
  ∃ a, store (sys (dstep rt d op)) = a :: take 4 (store (sys d)) ∧
       id a = JNum (Z.of_N (dateNow rt d)) ∧ ref a = next_ref d ∧
       dateNow rt (dstep rt d op) = dateNow rt d ∧
       next_ref (dstep rt d op) = S (next_ref d).
Proof.
  intros HD Hop. pose proof (dinv_sys rt d HD) as HI.
  assert (∀ a, store (step (sys d) (Add a)) = a :: take 4 (store (sys d))) as Hadd.
  { intros a. destruct (step_Add_spec a (sys d) HI) as [-> _]. apply addAlert_cons. }
  assert (∀ a, now (step (sys d) (Add a)) = now (sys d)) as Hnow
    by (intros a; by apply step_now).
  destruct op as [|token| |b| |k|ms]; cbn [calls_addAlert] in Hop; try done;
    dash_simpl.
  - unfold handleConnectWallet. destruct (isConnected d); [done|].
    exists (walletAlert rt d). unfold dateNow at 2. dash_simpl.
    rewrite Hadd, Hnow. by split_and!.
  - unfold handleTokenSelect. destruct (priceUSD token) as [price|].
    + exists (selectedAlert rt token price d). unfold dateNow at 2. dash_simpl.
      rewrite Hadd, Hnow. by split_and!.
    + apply bool_decide_eq_true in Hop. by destruct Hop.
  - unfold loadData_done. exists (initializedAlert rt d).
    unfold dateNow at 2. dash_simpl. rewrite Hadd, Hnow. by split_and!.
Qed.

Lemma spaced_distinct (rt : Runtime) (ops : list DOp) :
  ∀ moved d,
    DInv rt d → distinct_ids (store (sys d)) →
    (moved = true → ∀ a, a ∈ store (sys d) →
       ∃ t, id a = JNum (Z.of_N t) ∧ (t < dateNow rt d)%N) →
    spaced_from moved ops = true →
    distinct_ids (store (sys (drun rt ops d))).
Proof.
  induction ops as [|op ops IH]; intros moved d HD Hdist Hold Hsp; [done|].
  change (drun rt (op :: ops) d) with (drun rt ops (dstep rt d op)).
  pose proof (dstep_DInv rt d op HD) as HD'.
  pose proof (dstep_now rt d op HD) as [Hle Hlt].
  cbn [spaced_from] in Hsp.
  destruct (dstep_store_cases rt d op HD)
    as [Hsub|(Hp & a & Hst & Hid & Href & _)].
  - assert (distinct_ids (store (sys (dstep rt d op)))) as Hdist'
      by (by apply (distinct_ids_sublist _ (store (sys d)))).
    destruct (produces op) eqn:Hp.
    + apply andb_true_iff in Hsp as [_ Hsp]. by apply (IH false).
    + refine (IH _ _ HD' Hdist' _ Hsp). intros Hm a Ha.
      pose proof (elem_of_sublist _ _ _ Ha Hsub) as Ha0.
      apply orb_true_iff in Hm as [Hm|Hm].
      * destruct (Hold Hm a Ha0) as (t & Ht & Ht'). exists t. split; [done | lia].
      * destruct op as [|token| |b| |k|ms]; try done.
        apply bool_decide_eq_true in Hm.
        destruct (dinv_stamped rt d HD a Ha0) as (t & Ht & Ht').
        exists t. split; [done|]. specialize (Hlt ms eq_refl Hm). lia.
  - rewrite Hp in Hsp. apply andb_true_iff in Hsp as [-> Hsp].
    apply (IH false); [done | | done | done].
    rewrite Hst. apply distinct_ids_cons. split_and!.
    + rewrite Hid. simpl. by apply bool_decide_eq_true.
    + intros Hin. apply list_elem_of_fmap in Hin as (b & Hb & Hin).
      pose proof (elem_of_sublist _ _ _ Hin (sublist_take _ 4)) as Hin'.
      destruct (Hold eq_refl b Hin') as (t & Ht & Ht').
      rewrite Hid, Ht in Hb. injection Hb as Hb. lia.
    + apply (distinct_ids_sublist _ (store (sys d))); [apply sublist_take | done].
Qed.

(** X7. In a run of [Dashboard] in which the clock moves (by a millisecond
    at least) between any two events that call [addAlert], the ids in the
    store, which are values of [Date.now()], tell the alerts apart; every
    close button then removes its own card's alert and no other. *)
Theorem spaced_alerts_have_distinct_ids (rt : Runtime) (ops : list DOp) :
  spaced_from true ops = true →
  distinct_ids (store (sys (drun rt ops dmounted))) ∧
  ∀ k a, visible (sys (drun rt ops dmounted)) !! k = Some a →
         store (sys (dstep rt (drun rt ops dmounted) (CloseCard k)))
           = delete k (store (sys (drun rt ops dmounted))).
Proof.
  intros Hsp.
  assert (distinct_ids (store (sys (drun rt ops dmounted)))) as Hdist.
  { apply (spaced_distinct rt ops true dmounted); [apply dmounted_DInv | | | done].
    - split; [constructor|]. intros a Ha. by apply elem_of_nil in Ha.
    - intros _ a Ha. by apply elem_of_nil in Ha. }
  split; [done|]. intros k a Hk.
  pose proof (dinv_sys rt _ (drun_DInv rt ops _ (dmounted_DInv rt))) as HI.
  dash_simpl.
  destruct (click_close_distinct
              (toLocaleTimeString rt (dateNow rt (drun rt ops dmounted)))
              k a _ HI Hdist Hk) as [-> <-].
  by destruct (step_Dismiss_spec (id a) _ HI) as [-> _].
Qed.

Lemma spaced_alerts_have_distinct_ids_witness :
  let ops := [ClickConnect; Tick 2500; LoadDone; Tick 800; StatsOn; Tick 1200;
              ClickToken vapor] in
  let d := drun sampleRuntime ops dmounted in
  spaced_from true ops = true ∧
  distinct_ids (store (sys d)) ∧
  store (sys (dstep sampleRuntime d (CloseCard 1))) = delete 1 (store (sys d)).
Proof.
  intros ops d.
  assert (spaced_from true ops = true) as Hsp by (vm_compute; reflexivity).
  destruct (spaced_alerts_have_distinct_ids sampleRuntime ops Hsp) as [Hd Hclose].
  assert (∃ a, visible (sys d) !! 1 = Some a) as [a Hk]
    by (vm_compute; eexists; reflexivity).
  split_and!; [exact Hsp | exact Hd | exact (Hclose 1 a Hk)].
Defined.

Example spaced_ids_example :
  id <$> store (sys (drun sampleRuntime
                       [ClickConnect; Tick 2500; LoadDone; Tick 800; StatsOn;
                        Tick 1200; ClickToken vapor] dmounted))
  = [JNum 1700000004500; JNum 1700000002500; JNum 1700000000000].
Proof. by vm_compute. Qed.

(** X8. Two calls of [addAlert] that [Dashboard] makes with no tick of the
    clock in between (the callback of [loadData] run twice in a row, say)
    put two alert objects with one id, that value of [Date.now()], at the
    head of the store; the close button of the first card then removes
    both. *)
Theorem same_millisecond_alerts_share_an_id
    (rt : Runtime) (d : Dash) (op1 op2 : DOp) :
  dreachable rt d →
  calls_addAlert d op1 = true →
  calls_addAlert (dstep rt d op1) op2 = true →
  ∃ a1 a2,
    store (sys (dstep rt (dstep rt d op1) op2))
      = a2 :: a1 :: take 3 (store (sys d)) ∧
    id a1 = id a2 ∧ ref a1 ≠ ref a2 ∧
    store (sys (dstep rt (dstep rt (dstep rt d op1) op2) (CloseCard 0)))
      = dismissAlert (id a2) (take 3 (store (sys d))) ∧
    (a1 ∉ store (sys (dstep rt (dstep rt (dstep rt d op1) op2) (CloseCard 0)))).
Proof.
  intros Hd Hop1 Hop2. pose proof (dreachable_DInv rt d Hd) as HD.
  pose proof (dstep_DInv rt d op1 HD) as HD1.
  pose proof (dstep_DInv rt _ op2 HD1) as HD2.
  destruct (dstep_calls_addAlert rt d op1 HD Hop1)
    as (a1 & Hst1 & Hid1 & Href1 & Hnow1 & Hnext1).
  destruct (dstep_calls_addAlert rt _ op2 HD1 Hop2)
    as (a2 & Hst2 & Hid2 & Href2 & _ & _).
  rewrite Hnow1 in Hid2. rewrite Hnext1 in Href2.
  rewrite Hst1 in Hst2. cbn [take] in Hst2. rewrite take_take in Hst2.
  change (3 `min` 4) with 3 in Hst2.
  pose proof (dinv_sys rt _ HD2) as HI2.
  assert (visible (sys (dstep rt (dstep rt d op1) op2)) !! 0 = Some a2) as Hk.
  { by rewrite (inv_visible _ HI2), recentAlerts_take, Hst2. }
  assert (store (sys (dstep rt (dstep rt (dstep rt d op1) op2) (CloseCard 0)))
          = dismissAlert (id a2) (take 3 (store (sys d)))) as Hclose.
  { dash_simpl.
    destruct (render_lookup
                (toLocaleTimeString rt (dateNow rt (dstep rt (dstep rt d op1) op2)))
                _ 0 a2 Hk) as (card & Hcard & Hcid & _).
    unfold click_close. rewrite Hcard, Hcid.
    destruct (step_Dismiss_spec (id a2) _ HI2) as [-> _].
    rewrite Hst2. unfold dismissAlert.
    rewrite !filter_cons_False; [done | |].
    - rewrite Hid1, Hid2. unfold strict_neq. simpl.
      by rewrite bool_decide_eq_true_2.
    - rewrite Hid2. unfold strict_neq. simpl. by rewrite bool_decide_eq_true_2. }
  exists a1, a2. split_and!; [done | congruence | lia | done |].
  rewrite Hclose. intros Hin. apply dismissAlert_elem_of in Hin as [_ Hne].
  rewrite Hid1, Hid2 in Hne. simpl in Hne.
  by rewrite bool_decide_eq_true_2 in Hne.
Qed.

Lemma same_millisecond_alerts_share_an_id_witness :
  let d := drun sampleRuntime [Tick 2500] dmounted in
  dreachable sampleRuntime d ∧
  calls_addAlert d LoadDone = true ∧
  calls_addAlert (dstep sampleRuntime d LoadDone) LoadDone = true ∧
  ∃ a1 a2,
    store (sys (dstep sampleRuntime (dstep sampleRuntime d LoadDone) LoadDone))
      = a2 :: a1 :: take 3 (store (sys d)) ∧
    id a1 = id a2 ∧ ref a1 ≠ ref a2 ∧
    store (sys (dstep sampleRuntime
                  (dstep sampleRuntime (dstep sampleRuntime d LoadDone) LoadDone)
                  (CloseCard 0)))
      = dismissAlert (id a2) (take 3 (store (sys d))) ∧
    (a1 ∉ store (sys (dstep sampleRuntime
                        (dstep sampleRuntime (dstep sampleRuntime d LoadDone)
                           LoadDone)
                        (CloseCard 0)))).
Proof.
  intros d.
  assert (dreachable sampleRuntime d) as Hd by (by exists [Tick 2500]).
  clearbody d.
  split_and!; [exact Hd | reflexivity | reflexivity |].
  exact (same_millisecond_alerts_share_an_id sampleRuntime d LoadDone LoadDone
           Hd eq_refl eq_refl).
Defined.

Example same_millisecond_example :
  let d := drun sampleRuntime [Tick 2500; LoadDone; LoadDone] dmounted in
  id <$> store (sys d) = [JNum 1700000002500; JNum 1700000002500] ∧
  store (sys (dstep sampleRuntime d (CloseCard 0))) = [].
Proof. by vm_compute. Qed.

(** ** Selecting a token *)

(** X9. [handleTokenSelect(token)] always makes the token the active one
    and sets the glitch; it adds its alert, as the new head of the store
    and with the sound of [info], when [token.priceUSD] is a number, and
    throws a [TypeError] otherwise, leaving the store and the log as they
    were. *)
Theorem token_select_needs_price (rt : Runtime) (d : Dash) (token : Token) :
  dreachable rt d →
  activeToken (handleTokenSelect rt token d).1 = Some token ∧
  glitchActive (handleTokenSelect rt token d).1 = true ∧
  match priceUSD token with
  | Some price =>
      (handleTokenSelect rt token d).2 = None ∧
      store (sys (handleTokenSelect rt token d).1)
        = selectedAlert rt token price d :: take 4 (store (sys d)) ∧
      sounds (log (sys (handleTokenSelect rt token d).1))
        = sounds (log (sys d)) ++ [JStr "info"]
  | None =>
      (handleTokenSelect rt token d).2 = Some "TypeError" ∧
      store (sys (handleTokenSelect rt token d).1) = store (sys d) ∧
      log (sys (handleTokenSelect rt token d).1) = log (sys d)
  end.
Proof.
  intros Hd. pose proof (dreachable_DInv rt d Hd) as HD.
  pose proof (dinv_sys rt d HD) as HI.
  unfold handleTokenSelect. destruct (priceUSD token) as [price|]; dash_simpl.
  - split_and!; try done.
    + destruct (step_Add_spec (selectedAlert rt token price d) (sys d) HI) as [-> _].
      apply addAlert_cons.
    + destruct (step_Add_spec (selectedAlert rt token price d) (sys d) HI) as [_ ->].
      rewrite sounds_app, sounds_Sound, addAlert_cons. f_equal.
      unfold new_head_sound. cbn [head].
      destruct (store (sys d)) as [|h l] eqn:Hst; [done|]. cbn [head obj_neq].
      rewrite (bool_decide_eq_false_2 (ref (selectedAlert rt token price d) = ref h));
        [done|].
      pose proof (dinv_refs rt d HD h) as Href. rewrite Hst in Href.
      specialize (Href (list_elem_of_here _ _)). simpl. lia.
  - destruct (step_Rerender_spec (sys d) HI) as [Hst Hlog].
    split_and!; try done; unfold rerender_if; by destruct (_ || _).
Qed.

Lemma token_select_needs_price_witness :
  let d := drun sampleRuntime [Tick 2500; LoadDone] dmounted in
  dreachable sampleRuntime d ∧
  (handleTokenSelect sampleRuntime unpriced d).2 = Some "TypeError" ∧
  store (sys (handleTokenSelect sampleRuntime unpriced d).1) = store (sys d) ∧
  (handleTokenSelect sampleRuntime vapor d).2 = None.
Proof.
  intros d.
  assert (dreachable sampleRuntime d) as Hd by (by exists [Tick 2500; LoadDone]).
  clearbody d.
  destruct (token_select_needs_price sampleRuntime d unpriced Hd)
    as (_ & _ & Hthrow & Hstore & _).
  destruct (token_select_needs_price sampleRuntime d vapor Hd)
    as (_ & _ & Hok & _).
  split_and!; [exact Hd | exact Hthrow | exact Hstore | exact Hok].
Defined.

(** ** The token grid *)

Lemma dreachable_tokens (rt : Runtime) (d : Dash) :
  dreachable rt d → tokens d = [] ∨ tokens d = sampleTokens.
Proof.
  intros [ops ->]. induction ops as [|op ops IH] using rev_ind; [by left|].
  rewrite drun_snoc.
  destruct op as [|token| |b| |k|ms]; dash_simpl; try done.
  - unfold handleConnectWallet. by destruct (isConnected _).
  - unfold handleTokenSelect. by destruct (priceUSD token).
  - by right.
Qed.

Lemma sampleTokens_priced (token : Token) :
  token ∈ sampleTokens → is_Some (priceUSD token).
Proof.
  unfold sampleTokens. intros Hin.
  repeat (apply elem_of_cons in Hin as [->|Hin]; [by eexists|]).
  by apply elem_of_nil in Hin.
Qed.

(** X10. The grid of [TradeDashboard] shows four tokens at most, and none
    while [Dashboard] is loading; its tokens are sample tokens of
    [loadData], which have a price: a click on a card never throws, makes
    the token the active one and puts its SELECTED alert at the head of
    the store. *)
Theorem grid_click_adds_alert (rt : Runtime) (d : Dash) :
  dreachable rt d →
  length (token_grid d) ≤ 4 ∧
  (isLoading d = true → token_grid d = []) ∧
  ∀ k token,
    token_grid d !! k = Some token →
    token ∈ sampleTokens ∧
    (click_card rt k d).2 = None ∧
    activeToken (click_card rt k d).1 = Some token ∧
    ∃ price, priceUSD token = Some price ∧
             head (store (sys (click_card rt k d).1))
               = Some (selectedAlert rt token price d).
Proof.
  intros Hd. pose proof (dreachable_DInv rt d Hd) as HD.
  pose proof (dinv_sys rt d HD) as HI.
  assert (token_grid d `sublist_of` sampleTokens) as Hsub.
  { unfold token_grid. destruct (isLoading d); [apply sublist_nil_l|].
    rewrite (js_slice_from_0_nonneg 4).
    destruct (dreachable_tokens rt d Hd) as [->| ->]; [apply sublist_nil_l|].
    apply sublist_take. }
  split_and!.
  - apply sublist_length in Hsub. by rewrite Hsub.
  - unfold token_grid. by intros ->.
  - intros k token Hk.
    assert (token ∈ sampleTokens) as Hin.
    { apply (elem_of_sublist _ _ _ (list_elem_of_lookup_2 _ _ _ Hk) Hsub). }
    destruct (sampleTokens_priced token Hin) as [price Hprice].
    unfold click_card. rewrite Hk. unfold handleTokenSelect. rewrite Hprice.
    dash_simpl. split_and!; try done. exists price. split; [done|].
    destruct (step_Add_spec (selectedAlert rt token price d) (sys d) HI) as [-> _].
    by rewrite addAlert_cons.
Qed.

Lemma grid_click_adds_alert_witness :
  let d := drun sampleRuntime [Tick 2500; LoadDone] dmounted in
  dreachable sampleRuntime d ∧
  length (token_grid d) ≤ 4 ∧
  (click_card sampleRuntime 1 d).2 = None ∧
  activeToken (click_card sampleRuntime 1 d).1 = Some vapor.
Proof.
  intros d.
  assert (dreachable sampleRuntime d) as Hd by (by exists [Tick 2500; LoadDone]).
  assert (token_grid d !! 1 = Some vapor) as Hk by (vm_compute; reflexivity).
  clearbody d.
  destruct (grid_click_adds_alert sampleRuntime d Hd) as (Hlen & _ & Hclick).
  destruct (Hclick 1 vapor Hk) as (_ & Hok & Hact & _).
  split_and!; [exact Hd | exact Hlen | exact Hok | exact Hact].
Defined.

(** ** The loading screen *)

Lemma app_step_Pending (a : App.State) (e : App.Event) :
  App.Pending a → App.Pending (App.step a e).
Proof.
  intros [Hfut Hload]. destruct e as [path|ms]; simpl.
  - unfold App.navigate. case_bool_decide; [done|]. split; simpl.
    + intros dl Hdl. apply elem_of_app in Hdl as [Hdl|Hdl]; [by apply Hfut|].
      apply list_elem_of_singleton in Hdl as ->. lia.
    + intros _. exists (App.clock a + 800)%N. split; [|lia].
      apply elem_of_app. right. by apply list_elem_of_singleton.
  - unfold App.wait. split; simpl.
    + intros dl Hdl. apply list_elem_of_filter in Hdl as [Hdl _]. lia.
    + case_bool_decide as Hdue; [|done]. intros Hl.
      destruct (Hload Hl) as (dl & Hdl & Hle). exists dl. split; [|lia].
      apply list_elem_of_filter. split; [|done]. intros Hdue'.
      assert (dl ∈ filter (λ dl, (dl ≤ App.clock a + ms)%N) (App.timeouts a)) as Hin
        by (by apply list_elem_of_filter).
      rewrite Hdue in Hin. by apply elem_of_nil in Hin.
Qed.

Lemma app_reachable_Pending (a : App.State) : App.reachable a → App.Pending a.
Proof.
  intros (path & es & ->). induction es as [|e es IH] using rev_ind.
  - split; simpl.
    + intros dl Hdl. repeat (apply elem_of_cons in Hdl as [->|Hdl]; [lia|]).
      by apply elem_of_nil in Hdl.
    + intros _. exists 800%N. split; [|lia]. right. by left.
  - unfold App.run. rewrite foldl_snoc. by apply app_step_Pending.
Qed.

(** X11. The loading screen of [App] is gone 800 ms after the last change
    of the path at the latest, the mount included (the timeout of 2000 ms
    of the first effect never keeps it up), and it does not come back
    while the path stays. *)
Theorem loading_screen_ends (a : App.State) (ms : N) :
  App.reachable a → (800 ≤ ms)%N →
  App.loading (App.wait ms a) = false ∧
  App.loading (App.navigate (App.pathname a) (App.wait ms a)) = false.
Proof.
  intros Ha Hms. destruct (app_reachable_Pending a Ha) as [Hfut Hload].
  assert (App.loading (App.wait ms a) = false) as Hoff.
  { unfold App.wait. simpl. case_bool_decide as Hdue; [|done].
    destruct (App.loading a) eqn:Hl; [|done].
    destruct (Hload eq_refl) as (dl & Hdl & Hle).
    assert (dl ∈ filter (λ dl, (dl ≤ App.clock a + ms)%N) (App.timeouts a)) as Hin
      by (apply list_elem_of_filter; split; [lia | done]).
    rewrite Hdue in Hin. by apply elem_of_nil in Hin. }
  split; [done|]. unfold App.navigate.
  by rewrite (bool_decide_eq_true_2 (App.pathname (App.wait ms a) = App.pathname a)).
Qed.

Lemma loading_screen_ends_witness :
  let a := App.run [App.Wait 1500; App.Navigate "/dashboard"] (App.mounted "/") in
  App.reachable a ∧ (800 ≤ 800)%N ∧
  App.loading (App.wait 800 a) = false ∧
  App.loading (App.navigate (App.pathname a) (App.wait 800 a)) = false.
Proof.
  intros a.
  assert (App.reachable a) as Ha
    by (by exists "/", [App.Wait 1500; App.Navigate "/dashboard"]).
  assert (800 ≤ 800)%N as Hms by lia.
  clearbody a.
  split_and!; [exact Ha | exact Hms | ..];
    apply (loading_screen_ends a 800 Ha Hms).
Defined.

(** A stale timeout ends a later transition early: after a change of the
    path at 1500 ms the timeout of the mount hides the screen at 2000 ms,
    500 ms into the transition. *)
Example loading_cut_short :
  let a := App.run [App.Wait 1500; App.Navigate "/dashboard"] (App.mounted "/") in
  App.loading a = true ∧ App.loading (App.wait 500 a) = false.
Proof. by vm_compute. Qed.

(** ** The price change shown for the active token *)

Lemma td_run_snoc (es : list TDEvent) (e : TDEvent) (td : TD) :
  td_run (es ++ [e]) td = td_step (td_run es td) e.
Proof. unfold td_run. by rewrite foldl_snoc. Qed.

Lemma td_step_priceChange (td : TD) (e : TDEvent) :
  priceChange (td_step td e) = default (priceChange td) (taken_over e).
Proof.
  destruct e as [[token|]|]; simpl; try done.
  unfold effect_activeToken.
  destruct (priceChange24h token) as [change|]; [|done].
  by destruct (number_truthy change).
Qed.

Lemma sampleTokens_change (token : Token) :
  token ∈ sampleTokens →
  ∃ change, priceChange24h token = Some change ∧ number_truthy change = true.
Proof.
  unfold sampleTokens. intros Hin.
  repeat (apply elem_of_cons in Hin as [->|Hin];
          [eexists; split; [reflexivity | by vm_compute]|]).
  by apply elem_of_nil in Hin.
Qed.

(** X12. The panel of [TradeDashboard] shows the [priceChange24h] of the
    last token that became active with a change other than [0], [NaN] and
    a missing one ([0] before any such): a token with such a change leaves
    the price change of the token before on display.  For the sample
    tokens of [Dashboard] the panel shows the change of the active token,
    with the arrow of its card in the grid. *)
Theorem price_change_is_last_nonzero (es : list TDEvent) :
  priceChange (td_run es td_mounted)
    = default (Finite (Qc_of_Z 0)) (last (omap taken_over es)) ∧
  ∀ es' token,
    es = es' ++ [Active (Some token)] →
    (taken_over (Active (Some token)) = None →
     priceChange (td_run es td_mounted) = priceChange (td_run es' td_mounted)) ∧
    (token ∈ sampleTokens →
     priceChange24h token = Some (priceChange (td_run es td_mounted)) ∧
     panel_up (td_run es td_mounted) = grid_up token).
Proof.
  assert (∀ es, priceChange (td_run es td_mounted)
                = default (Finite (Qc_of_Z 0)) (last (omap taken_over es))) as Hlast.
  { clear es. intros es. induction es as [|e es IH] using rev_ind; [done|].
    rewrite td_run_snoc, td_step_priceChange, IH, omap_app, last_app.
    simpl. by destruct (taken_over e). }
  split; [apply Hlast|]. intros es' token ->. split.
  - intros Hnone. by rewrite td_run_snoc, td_step_priceChange, Hnone.
  - intros Hin. destruct (sampleTokens_change token Hin) as (change & Hch & Htr).
    rewrite td_run_snoc. unfold panel_up, grid_up.
    rewrite td_step_priceChange. simpl. by rewrite Hch, Htr.
Qed.

Lemma price_change_is_last_nonzero_witness :
  let es := [Active (Some vapor); Active (Some flat)] in
  taken_over (Active (Some flat)) = None ∧
  priceChange (td_run es td_mounted)
    = priceChange (td_run [Active (Some vapor)] td_mounted).
Proof.
  intros es.
  assert (taken_over (Active (Some flat)) = None) as Hnone by (by vm_compute).
  split; [exact Hnone|].
  destruct (price_change_is_last_nonzero es) as [_ Hes].
  destruct (Hes [Active (Some vapor)] flat eq_refl) as [Hstale _].
  exact (Hstale Hnone).
Defined.

(** After the second sample token a token without a change keeps the
    arrow of the panel down, while its card in the grid points up. *)
Example stale_arrow_example :
  let td := td_run [Active (Some vapor); Active (Some flat)] td_mounted in
  priceChange td = decimal (-37) 10 ∧ panel_up td = false ∧ grid_up flat = true.
Proof. by vm_compute. Qed.

(** ** The bar of the tax *)

Lemma js_ge_Z (z n : Z) : js_ge (Finite (Qc_of_Z z)) n = bool_decide (n ≤ z)%Z.
Proof. simpl. apply bool_decide_ext. symmetry. apply Z2Qc_inj_le. Qed.

(** X13. The inverted scale of [getProgressColor] is the regular one with
    red and green, and orange and yellow, exchanged, for every value.  The
    bar of the tax uses it on [100 - max_tax * 5], which is high for a low
    tax: the bar is red for a tax up to 4, orange up to 8, yellow up to 12
    and green from 13 on. *)
Theorem tax_bar_red_for_low_tax (value : JsNumber) (max_tax : Z) :
  getProgressColor value true = mirror (getProgressColor value false) ∧
  (tax_bar max_tax = "bg-red-500" ↔ (max_tax ≤ 4)%Z) ∧
  (tax_bar max_tax = "bg-orange-500" ↔ (5 ≤ max_tax ≤ 8)%Z) ∧
  (tax_bar max_tax = "bg-yellow-500" ↔ (9 ≤ max_tax ≤ 12)%Z) ∧
  (tax_bar max_tax = "bg-green-500" ↔ (13 ≤ max_tax)%Z).
Proof.
  split.
  - unfold getProgressColor.
    by destruct (js_ge value 80), (js_ge value 60), (js_ge value 40).
  - unfold tax_bar, getProgressColor. rewrite !js_ge_Z.
    repeat case_bool_decide; split_and!; split; (done || lia).
Qed.

(** The risk data of [Dashboard] have a tax of 5, found reasonable: its
    bar is orange. *)
Example tax_bar_example : tax_bar 5 = "bg-orange-500".
Proof. by vm_compute. Qed.

(** ** The wallet status *)

Lemma dreachable_balance (rt : Runtime) (d : Dash) :
  dreachable rt d → isConnected d = true → walletBalance d = decimal 1234 1000.
Proof.
  intros [ops ->]. induction ops as [|op ops IH] using rev_ind; [done|].
  rewrite drun_snoc.
  destruct op as [|token| |b| |k|ms]; dash_simpl; try done.
  - unfold handleConnectWallet. destruct (isConnected _) eqn:Hc; [|done].
    intros _. by apply IH.
  - unfold handleTokenSelect. destruct (priceUSD token); exact IH.
Qed.

(** X14. [Header] never shows the bare CONNECTED label under [Dashboard]:
    when connected the balance is 1.234 and is shown.  When not connected
    the button is there, a click on it puts the WALLET CONNECTED alert at
    the head of the store, and the button is gone for the balance. *)
Theorem header_shows_button_or_balance (rt : Runtime) (d : Dash) :
  dreachable rt d →
  (isConnected d = true →
   wallet_status (walletBalance d) (isConnected d) = Balance (decimal 1234 1000) ∧
   click_connect rt d = d) ∧
  (isConnected d = false →
   wallet_status (walletBalance d) (isConnected d) = ConnectButton ∧
   head (store (sys (click_connect rt d))) = Some (walletAlert rt d) ∧
   wallet_status (walletBalance (click_connect rt d))
                 (isConnected (click_connect rt d))
     = Balance (decimal 1234 1000)).
Proof.
  intros Hd. pose proof (dinv_sys rt d (dreachable_DInv rt d Hd)) as HI. split.
  - intros Hc. unfold click_connect.
    by rewrite (dreachable_balance rt d Hd Hc), Hc.
  - intros Hc. unfold click_connect. rewrite Hc. cbn [wallet_status].
    unfold handleConnectWallet. rewrite Hc. dash_simpl.
    split_and!; [done | | by vm_compute].
    destruct (step_Add_spec (walletAlert rt d) (sys d) HI) as [-> _].
    by rewrite addAlert_cons.
Qed.

Lemma header_shows_button_or_balance_witness :
  let d := drun sampleRuntime [Tick 1000] dmounted in
  dreachable sampleRuntime d ∧ isConnected d = false ∧
  head (store (sys (click_connect sampleRuntime d)))
    = Some (walletAlert sampleRuntime d) ∧
  wallet_status (walletBalance (click_connect sampleRuntime d))
                (isConnected (click_connect sampleRuntime d))
    = Balance (decimal 1234 1000).
Proof.
  intros d.
  assert (dreachable sampleRuntime d) as Hd by (by exists [Tick 1000]).
  assert (isConnected d = false) as Hc by (vm_compute; reflexivity).
  clearbody d.
  destruct (header_shows_button_or_balance sampleRuntime d Hd) as [_ Hoff].
  destruct (Hoff Hc) as (_ & Hhead & Hstatus).
  split_and!; [exact Hd | exact Hc | exact Hhead | exact Hstatus].
Defined.

(** * Expiry, one alert after the other *)

(** ** A render and a wait, with their timeouts *)

Lemma rerender_timer (s : Sys) :
  Inv s →
  Inv (step s Rerender) ∧ now (step s Rerender) = now s ∧
  store (step s Rerender) = store s ∧ log (step s Rerender) = log s ∧
  (∀ t, t ∈ timers (step s Rerender) → deadline t = (now s + ttlMs)%N).
Proof.
  intros HI. destruct (step_Rerender_spec s HI) as [Hst Hlog].
  split_and!; [by apply step_Inv | by apply step_now | done | done |].
  intros t Ht. by destruct (step_rearms s Rerender t HI eq_refl Ht).
Qed.

Lemma wait_quiet (d : N) (s : Sys) :
  Inv s → (∀ t, t ∈ timers s → (now s + d < deadline t)%N) →
  Inv (wait d s) ∧ now (wait d s) = (now s + d)%N ∧
  store (wait d s) = store s ∧ log (wait d s) = log s ∧
  timers (wait d s) = timers s.
Proof.
  intros HI Hlate. split; [by apply wait_Inv|].
  assert (wait d s = set_now (now s + d)%N s) as ->; [|done].
  pose proof (Inv_timers s HI) as Ht.
  destruct (last (visible s)) as [oldest|].
  - destruct Ht as (t & Ht & _). apply (wait_early d s t Ht).
    apply Hlate. rewrite Ht. by left.
  - by apply wait_no_timer.
Qed.

Lemma wait_fires (d : N) (s : Sys) (oldest : Alert) :
  Inv s → last (take 3 (store s)) = Some oldest →
  (∀ t, t ∈ timers s → (deadline t ≤ now s + d)%N) →
  ∃ t, timers s = [t] ∧
       Inv (wait d s) ∧ now (wait d s) = deadline t ∧
       store (wait d s) = dismissAlert (id oldest) (store s) ∧
       dismissals (log (wait d s)) = dismissals (log s) ++ [id oldest] ∧
       (∀ t', t' ∈ timers (wait d s) → deadline t' = (deadline t + ttlMs)%N).
Proof.
  intros HI Hlast Hdue.
  rewrite <- recentAlerts_take, <- (inv_visible s HI) in Hlast.
  pose proof (Inv_timers s HI) as Ht. rewrite Hlast in Ht.
  destruct Ht as (t & Ht & Hva & _ & Hdl).
  assert (deadline t ≤ now s + d)%N as Hd by (apply Hdue; rewrite Ht; by left).
  destruct (wait_due_spec d s t oldest HI Ht Hlast Hd) as (Hnow & Hst & Hlog).
  exists t. split_and!; [done | by apply wait_Inv | done | done | |].
  - rewrite Hlog, dismissals_app. simpl. by rewrite dismissals_Sound.
  - assert (now s ≤ deadline t ≤ now s + d)%N as Hb by lia.
    pose proof (wait_due d s t oldest (inv_settled s HI) Ht Hva Hlast Hb) as Hw.
    rewrite Hw. unfold after_setAlerts. simpl.
    destruct (recentAlerts _ _); intros t' Ht'; [by apply elem_of_nil in Ht'|].
    by apply list_elem_of_singleton in Ht' as ->.
Qed.

Lemma wait_cases (d : N) (s : Sys) :
  Inv s →
  (store (wait d s) = store s ∧ log (wait d s) = log s) ∨
  (∃ oldest, last (take 3 (store s)) = Some oldest ∧
             store (wait d s) = dismissAlert (id oldest) (store s) ∧
             dismissals (log (wait d s)) = dismissals (log s) ++ [id oldest]).
Proof.
  intros HI. pose proof (Inv_timers s HI) as Ht.
  destruct (last (visible s)) as [oldest|] eqn:Hlast.
  - destruct Ht as (t & Ht & Hva & _ & Hdl).
    destruct (decide (deadline t ≤ now s + d)%N) as [Hdue|Hearly].
    + right. exists oldest.
      destruct (wait_due_spec d s t oldest HI Ht Hlast Hdue) as (_ & Hst & Hlog).
      split_and!; [| done |].
      * by rewrite <- recentAlerts_take, <- (inv_visible s HI).
      * rewrite Hlog, dismissals_app. simpl. by rewrite dismissals_Sound.
    + left. by rewrite (wait_early d s t) by (done || lia).
  - left. by rewrite wait_no_timer by done.
Qed.

Lemma last_take_None {A : Type} (l : list A) : last (take 3 l) = None → l = [].
Proof. intros Hl. apply last_None in Hl. by destruct l. Qed.

(** ** One period of the glitch interval *)

Lemma glitch_cycle_sys (s : Sys) :
  Inv s →
  now (run [Rerender; Wait 800; Rerender; Wait 10000; Wait 4200] s)
    = (now s + 15000)%N ∧
  match last (take 3 (store s)) with
  | Some oldest =>
      store (run [Rerender; Wait 800; Rerender; Wait 10000; Wait 4200] s)
        = dismissAlert (id oldest) (store s) ∧
      dismissals (log (run [Rerender; Wait 800; Rerender; Wait 10000; Wait 4200] s))
        = dismissals (log s) ++ [id oldest]
  | None =>
      store (run [Rerender; Wait 800; Rerender; Wait 10000; Wait 4200] s) = store s ∧
      log (run [Rerender; Wait 800; Rerender; Wait 10000; Wait 4200] s) = log s
  end.
Proof.
  intros HI.
  change (run [Rerender; Wait 800; Rerender; Wait 10000; Wait 4200] s)
    with (wait 4200 (wait 10000 (step (wait 800 (step s Rerender)) Rerender))).
  destruct (rerender_timer s HI) as (HI1 & Hnow1 & Hst1 & Hlog1 & Ht1).
  destruct (wait_quiet 800 _ HI1) as (HI2 & Hnow2 & Hst2 & Hlog2 & _).
  { intros t Ht. rewrite (Ht1 t Ht), Hnow1. unfold ttlMs. lia. }
  destruct (rerender_timer _ HI2) as (HI3 & Hnow3 & Hst3 & Hlog3 & Ht3).
  set (s3 := step (wait 800 (step s Rerender)) Rerender) in *.
  assert (store s3 = store s) as Hst by congruence.
  assert (log s3 = log s) as Hlog by congruence.
  assert (now s3 = now s + 800)%N as Hnow by lia.
  destruct (last (take 3 (store s))) as [oldest|] eqn:Hlast.
  - destruct (wait_fires 10000 s3 oldest HI3) as (t & Hts & HI4 & Hnow4 & Hst4 & Hlog4 & Ht4).
    { by rewrite Hst. }
    { intros t Ht. rewrite (Ht3 t Ht), Hnow3, Hnow2, Hnow1. unfold ttlMs. lia. }
    assert (deadline t = now s + 10800)%N as Hdl.
    { rewrite (Ht3 t) by (rewrite Hts; by left).
      rewrite Hnow2, Hnow1. unfold ttlMs. lia. }
    destruct (wait_quiet 4200 _ HI4) as (_ & Hnow5 & Hst5 & Hlog5 & _).
    { intros t' Ht'. rewrite (Ht4 t' Ht'), Hnow4, Hdl. unfold ttlMs. lia. }
    split_and!.
    + rewrite Hnow5, Hnow4, Hdl. lia.
    + by rewrite Hst5, Hst4, Hst.
    + by rewrite Hlog5, Hlog4, Hlog.
  - apply last_take_None in Hlast.
    assert (timers s3 = []) as Hts.
    { pose proof (Inv_timers s3 HI3) as Ht.
      by rewrite (inv_visible s3 HI3), Hst, Hlast in Ht. }
    destruct (wait_quiet 10000 s3 HI3) as (HI4 & Hnow4 & Hst4 & Hlog4 & Hts4).
    { intros t Ht. rewrite Hts in Ht. by apply elem_of_nil in Ht. }
    destruct (wait_quiet 4200 _ HI4) as (_ & Hnow5 & Hst5 & Hlog5 & _).
    { intros t Ht. rewrite Hts4, Hts in Ht. by apply elem_of_nil in Ht. }
    split_and!.
    + rewrite Hnow5, Hnow4, Hnow. lia.
    + by rewrite Hst5, Hst4, Hst.
    + by rewrite Hlog5, Hlog4, Hlog.
Qed.

Lemma drun_app (rt : Runtime) (ops1 ops2 : list DOp) (d : Dash) :
  drun rt (ops1 ++ ops2) d = drun rt ops2 (drun rt ops1 d).
Proof. unfold drun. by rewrite foldl_app. Qed.

Lemma drun_glitch_cycle (rt : Runtime) (d : Dash) :
  glitchActive d = false →
  sys (drun rt glitch_cycle d)
    = run [Rerender; Wait 800; Rerender; Wait 10000; Wait 4200] (sys d) ∧
  glitchActive (drun rt glitch_cycle d) = false.
Proof.
  intros Hg. unfold drun, glitch_cycle. cbn [foldl]. dash_simpl.
  unfold setGlitchActive. dash_simpl. rewrite Hg.
  rewrite (bool_decide_eq_false_2 (false = true)) by done.
  rewrite (bool_decide_eq_false_2 (true = false)) by done.
  unfold rerender_if, run. cbn [negb foldl]. split; reflexivity.
Qed.

(** ** The events of [Dashboard] left alone *)

Lemma quiet_step (rt : Runtime) (d : Dash) (op : DOp) :
  DInv rt d → quiet op = true →
  (store (sys (dstep rt d op)) = store (sys d) ∧
   log (sys (dstep rt d op)) = log (sys d)) ∨
  (∃ oldest, last (take 3 (store (sys d))) = Some oldest ∧
             store (sys (dstep rt d op)) = dismissAlert (id oldest) (store (sys d)) ∧
             dismissals (log (sys (dstep rt d op)))
               = dismissals (log (sys d)) ++ [id oldest]).
Proof.
  intros HD Hq. pose proof (dinv_sys rt d HD) as HI.
  destruct (step_Rerender_spec (sys d) HI) as [Hst Hlog].
  destruct op as [|token| |b| |k|ms]; try done; dash_simpl.
  - left. unfold setGlitchActive, rerender_if. dash_simpl. by destruct (negb _).
  - left. unfold setStatsVisible, rerender_if. dash_simpl. by destruct (negb _).
  - change (step (sys d) (Wait ms)) with (wait ms (sys d)). by apply wait_cases.
Qed.

Lemma quiet_run (rt : Runtime) (ops : list DOp) :
  ∀ d, DInv rt d → distinct_ids (store (sys d)) →
       Forall (λ op, quiet op = true) ops →
       ∃ k, k ≤ length (store (sys d)) ∧
            dismissals (log (sys (drun rt ops d)))
              = dismissals (log (sys d))
                ++ take k (id <$> expiry_order (store (sys d))) ∧
            length (store (sys (drun rt ops d))) + k = length (store (sys d)) ∧
            expiry_order (store (sys (drun rt ops d)))
              = drop k (expiry_order (store (sys d))).
Proof.
  induction ops as [|op ops IH]; intros d HD Hd Hops.
  - exists 0. change (drun rt [] d) with d. rewrite take_0, drop_0.
    rewrite (right_id_L [] (++)). split_and!; [lia | done | lia | done].
  - apply Forall_cons in Hops as [Hop Hops].
    change (drun rt (op :: ops) d) with (drun rt ops (dstep rt d op)).
    pose proof (dstep_DInv rt d op HD) as HD1.
    destruct (quiet_step rt d op HD Hop) as [[Hst Hlog]|(oldest & Hlast & Hst & Hlog)].
    + destruct (IH _ HD1) as (k & Hk & Hdis & Hlen & Hrest); [by rewrite Hst | done |].
      rewrite Hst in Hk, Hdis, Hlen, Hrest. rewrite Hlog in Hdis.
      by exists k.
    + assert (store (sys d) ≠ []) as Hne by (by intros Hnil; rewrite Hnil in Hlast).
      destruct (expiry_order_step _ Hne Hd)
        as (oldest' & l' & Hlast' & Hl' & Hlen' & Hd' & Horder).
      assert (oldest' = oldest) as -> by congruence.
      rewrite Hl' in Hst.
      destruct (IH _ HD1) as (k & Hk & Hdis & Hlen & Hrest); [by rewrite Hst | done |].
      rewrite Hst in Hk, Hdis, Hlen, Hrest. rewrite Hlog in Hdis.
      exists (S k). rewrite Horder, fmap_cons. cbn [take drop].
      split_and!; [lia | | lia | done].
      by rewrite Hdis, <- (assoc_L (++)).
Qed.

Lemma glitch_cycles_run (rt : Runtime) (n : nat) :
  ∀ d, DInv rt d → glitchActive d = false → distinct_ids (store (sys d)) →
       now (sys (drun rt (glitch_cycles n) d))
         = (now (sys d) + 15000 * N.of_nat n)%N ∧
       dismissals (log (sys (drun rt (glitch_cycles n) d)))
         = dismissals (log (sys d))
           ++ take n (id <$> expiry_order (store (sys d))) ∧
       length (store (sys (drun rt (glitch_cycles n) d)))
         = length (store (sys d)) - n.
Proof.
  induction n as [|n IH]; intros d HD Hg Hd.
  - change (drun rt (glitch_cycles 0) d) with d. rewrite take_0.
    rewrite (right_id_L [] (++)). split_and!; [lia | done | lia].
  - change (glitch_cycles (S n)) with (glitch_cycle ++ glitch_cycles n).
    rewrite drun_app.
    pose proof (drun_DInv rt glitch_cycle d HD) as HD1.
    destruct (drun_glitch_cycle rt d Hg) as [Hsys Hg1].
    destruct (glitch_cycle_sys (sys d) (dinv_sys rt d HD)) as [Hnow Hcyc].
    rewrite <- Hsys in Hnow, Hcyc.
    destruct (last (take 3 (store (sys d)))) as [oldest|] eqn:Hlast.
    + destruct Hcyc as [Hst Hlog].
      assert (store (sys d) ≠ []) as Hne by (by intros Hnil; rewrite Hnil in Hlast).
      destruct (expiry_order_step _ Hne Hd)
        as (oldest' & l' & Hlast' & Hl' & Hlen' & Hd' & Horder).
      assert (oldest' = oldest) as -> by congruence.
      rewrite Hl' in Hst.
      destruct (IH _ HD1 Hg1) as (Hnow' & Hdis & Hlen); [by rewrite Hst|].
      rewrite Hst in Hdis, Hlen. rewrite Hlog in Hdis. rewrite Hnow in Hnow'.
      rewrite Horder, fmap_cons. cbn [take].
      split_and!; [lia | | lia].
      by rewrite Hdis, <- (assoc_L (++)).
    + destruct Hcyc as [Hst Hlog]. apply last_take_None in Hlast.
      destruct (IH _ HD1 Hg1) as (Hnow' & Hdis & Hlen); [by rewrite Hst|].
      rewrite Hst in Hdis, Hlen. rewrite Hlog in Hdis. rewrite Hnow in Hnow'.
      rewrite Hlast in Hdis, Hlen |- *. unfold expiry_order in Hdis |- *.
      cbn [take drop reverse fmap list_fmap app length] in Hdis, Hlen |- *.
      change (id <$> reverse []) with (@nil JsVal) in Hdis |- *.
      rewrite take_nil in Hdis |- *.
      split_and!; [lia | done | lia].
Qed.

(** X3. [Dashboard] left alone, with ids that tell the entries apart:
    whatever its timeouts and its interval render and however the time
    passes, the timeout of the component dismisses the entries in one
    order, the tail of the window each time: the third entry first, then
    the entries behind it as they move up, then the second, and the newest
    last.  Under the glitch interval, which renders every 15000 ms and
    800 ms later and re-arms the timeout with each render, one entry goes
    per period: from a firing of the interval with the glitch off, [n]
    periods take [n * 15000] ms and dismiss the first [n] entries of that
    order. *)
Theorem expiry_order_when_left_alone (rt : Runtime) (d : Dash) :
  dreachable rt d → distinct_ids (store (sys d)) →
  (∀ ops, Forall (λ op, quiet op = true) ops →
          ∃ k, k ≤ length (store (sys d)) ∧
               dismissals (log (sys (drun rt ops d)))
                 = dismissals (log (sys d))
                   ++ take k (id <$> expiry_order (store (sys d))) ∧
               length (store (sys (drun rt ops d))) + k
                 = length (store (sys d)) ∧
               expiry_order (store (sys (drun rt ops d)))
                 = drop k (expiry_order (store (sys d)))) ∧
  (glitchActive d = false →
   ∀ n, now (sys (drun rt (glitch_cycles n) d))
          = (now (sys d) + 15000 * N.of_nat n)%N ∧
        dismissals (log (sys (drun rt (glitch_cycles n) d)))
          = dismissals (log (sys d))
            ++ take n (id <$> expiry_order (store (sys d))) ∧
        length (store (sys (drun rt (glitch_cycles n) d)))
          = length (store (sys d)) - n).
Proof.
  intros Hr Hd. pose proof (dreachable_DInv rt d Hr) as HD. split.
  - intros ops Hops. by apply quiet_run.
  - intros Hg n. by apply glitch_cycles_run.
Qed.

Lemma expiry_order_when_left_alone_witness :
  let d := drun sampleRuntime
             [ClickConnect; Tick 2500; LoadDone; Tick 800; StatsOn; Tick 1200;
              ClickToken vapor; Tick 800; Glitch false; Tick 9700] dmounted in
  dreachable sampleRuntime d ∧ distinct_ids (store (sys d)) ∧
  glitchActive d = false ∧
  now (sys (drun sampleRuntime (glitch_cycles 3) d))
    = (now (sys d) + 15000 * N.of_nat 3)%N ∧
  dismissals (log (sys (drun sampleRuntime (glitch_cycles 3) d)))
    = dismissals (log (sys d)) ++ take 3 (id <$> expiry_order (store (sys d))) ∧
  length (store (sys (drun sampleRuntime (glitch_cycles 3) d)))
    = length (store (sys d)) - 3.
Proof.
  intros d.
  assert (dreachable sampleRuntime d) as Hr by (by eexists).
  assert (distinct_ids (store (sys d))) as Hd.
  { apply (spaced_distinct sampleRuntime _ true dmounted);
      [apply dmounted_DInv | | | by vm_compute].
    - split; [constructor|]. intros a Ha. by apply elem_of_nil in Ha.
    - intros _ a Ha. by apply elem_of_nil in Ha. }
  assert (glitchActive d = false) as Hg by (vm_compute; reflexivity).
  clearbody d.
  destruct (expiry_order_when_left_alone sampleRuntime d Hr Hd) as [_ Hcycles].
  split_and!; [exact Hr | exact Hd | exact Hg | ..]; apply (Hcycles Hg 3).
Defined.

(** Three alerts of [Dashboard], made 0, 2500 and 4500 ms after the
    mount, and no click after that: the interval fires first at 15000 ms,
    and the alerts go one per period, 10800 ms into it, the oldest first
    here and the newest last. *)
Example glitch_cycles_example :
  let d := drun sampleRuntime
             [ClickConnect; Tick 2500; LoadDone; Tick 800; StatsOn; Tick 1200;
              ClickToken vapor; Tick 800; Glitch false; Tick 9700] dmounted in
  id <$> store (sys d)
    = [JNum 1700000004500; JNum 1700000002500; JNum 1700000000000] ∧
  now (sys d) = 15000%N ∧ dismissals (log (sys d)) = [] ∧
  now (sys (drun sampleRuntime
              [Glitch true; Tick 800; Glitch false; Tick 10000] d)) = 25800%N ∧
  dismissals (log (sys (drun sampleRuntime
                          [Glitch true; Tick 800; Glitch false; Tick 10000] d)))
    = [JNum 1700000000000] ∧
  dismissals (log (sys (drun sampleRuntime (glitch_cycles 2) d)))
    = [JNum 1700000000000; JNum 1700000002500] ∧
  now (sys (drun sampleRuntime (glitch_cycles 2) d)) = 45000%N ∧
  store (sys (drun sampleRuntime (glitch_cycles 3) d)) = [].
Proof. by vm_compute. Qed.
